(** * Starframe's Blender export hook ([blender/export.py])

    A shallow embedding of the [export] load-post handler and the proofs of
    its documented behaviour.  The handler has three phases:

    - it reads [sys.argv] into the two locals [target_dir] and
      [is_debug_mode] (a [try] block whose every exception is swallowed);
    - it walks [bpy.data.objects], tags every object that instances a linked
      collection with a ["link"] custom property and removes the members of
      that collection from the file;
    - it calls [bpy.ops.export_scene.gltf] with a fixed set of keyword
      arguments.

    Python exceptions are an explicit outcome, mutable state is threaded
    through a small state-and-exception monad, and the host ([bpy]) is a
    record holding the object list, the member lists of the collections and
    the log of the requests it received. *)

From Stdlib Require Import Ascii String.
From stdpp Require Import gmap strings list.

Local Open Scope string_scope.
Local Open Scope list_scope.

(** ** Exceptions and the state-and-exception monad *)

Inductive exn : Type :=
| ValueError
| IndexError
| ReferenceError
| TypeError
| RuntimeError (msg : string).

Inductive outcome (A : Type) : Type :=
| Ok (a : A)
| Raise (e : exn).
Arguments Ok {A} a.
Arguments Raise {A} e.

(** A statement run in state [S]: the state is returned in both outcomes,
    since what Python assigned before an exception stays assigned. *)
Definition M (S A : Type) : Type := S -> outcome A * S.

Definition ret {S A} (a : A) : M S A := fun s => (Ok a, s).

Definition bind {S A B} (m : M S A) (k : A -> M S B) : M S B :=
  fun s => match m s with
           | (Ok a, s') => k a s'
           | (Raise e, s') => (Raise e, s')
           end.

Definition raise {S A} (e : exn) : M S A := fun s => (Raise e, s).
Definition get {S} : M S S := fun s => (Ok s, s).
Definition modify {S} (f : S -> S) : M S unit := fun s => (Ok tt, f s).

(** [try: m  except Exception: pass] *)
Definition try_except_pass {S} (m : M S unit) : M S unit :=
  fun s => match m s with
           | (Ok _, s') => (Ok tt, s')
           | (Raise _, s') => (Ok tt, s')
           end.

Notation "'let!' x := m 'in' k" := (bind m (fun x => k))
  (at level 10, x name, m at level 100, k at level 200, only parsing).
Notation "m ;;; k" := (bind m (fun _ => k))
  (at level 100, k at level 200, right associativity, only parsing).

(** [for x in l: body x] over a sequence that is fixed when the loop starts. *)
Fixpoint for_each {S X} (l : list X) (body : X -> M S unit) : M S unit :=
  match l with
  | [] => ret tt
  | x :: l' => body x ;;; for_each l' body
  end.

(** ** The Python string and list methods the hook calls *)

(** [s.startswith(p)] *)
Definition startswith (s p : string) : bool := String.prefix p s.

(** [c in chars] for a character. *)
Fixpoint char_in (c : ascii) (chars : string) : bool :=
  match chars with
  | EmptyString => false
  | String c' chars' => Ascii.eqb c c' || char_in c chars'
  end.

(** [s.rstrip(chars)]: drops the longest suffix made of characters of
    [chars]. *)
Fixpoint rstrip (s chars : string) : string :=
  match s with
  | EmptyString => EmptyString
  | String c s' =>
      match rstrip s' chars with
      | EmptyString => if char_in c chars then EmptyString
                       else String c EmptyString
      | r => String c r
      end
  end.

(** [s.endswith(suffix)] *)
Definition endswith (s suffix : string) : bool :=
  let n := String.length s in
  let m := String.length suffix in
  (m <=? n)%nat && String.eqb (String.substring (n - m) m s) suffix.

(** [s.removesuffix(suffix)]: CPython returns [s[:-len(suffix)]] when the
    suffix is not empty and [s] ends with it, and [s] itself otherwise. *)
Definition removesuffix (s suffix : string) : string :=
  if negb (String.eqb suffix "") && endswith s suffix
  then String.substring 0 (String.length s - String.length suffix) s
  else s.

(** [l.index(x)]: the position of the first element equal to [x];
    [ValueError] when there is none. *)
Fixpoint index (x : string) (l : list string) : outcome nat :=
  match l with
  | [] => Raise ValueError
  | y :: l' => if String.eqb y x then Ok 0
               else match index x l' with
                    | Ok i => Ok (S i)
                    | Raise e => Raise e
                    end
  end.

(** [l[i]] for [i >= 0]; [IndexError] out of range. *)
Definition getitem (l : list string) (i : nat) : outcome string :=
  match l !! i with
  | Some x => Ok x
  | None => Raise IndexError
  end.

(** [x in l] *)
Definition contains (x : string) (l : list string) : bool :=
  existsb (String.eqb x) l.

Definition lift {S A} (o : outcome A) : M S A := fun s => (o, s).

(** ** Reading the command line (lines 14-25) *)

Record locals : Type := Locals {
  target_dir : string;
  is_debug_mode : bool
}.

(** Lines 14 and 16. *)
Definition initial_locals : locals :=
  {| target_dir := "."; is_debug_mode := false |}.

Definition set_target_dir (d : string) (v : locals) : locals :=
  {| target_dir := d; is_debug_mode := is_debug_mode v |}.
Definition set_is_debug_mode (b : bool) (v : locals) : locals :=
  {| target_dir := target_dir v; is_debug_mode := b |}.

(** The body of the [try] block, lines 18-22. *)
Definition parse_body (argv : list string) : M locals unit :=
  let! i := lift (index "--" argv) in
  let args := drop (i + 1) argv in
  let! a0 := lift (getitem args 0) in
  (if negb (startswith a0 "-")
   then (let! a0' := lift (getitem args 0) in
         modify (set_target_dir (rstrip a0' "/")))
   else ret tt) ;;;
  (if contains "--debug" args
   then modify (set_is_debug_mode true)
   else ret tt).

(** Lines 14-25: the locals after the [try ... except Exception: pass]. *)
Definition parse_args (argv : list string) : locals :=
  snd (try_except_pass (parse_body argv) initial_locals).

(** ** The host's data (the part of [bpy.data] the hook reads and writes)

    Data-blocks have an identity of their own: two objects may carry the same
    name (one local, one linked), so the scene refers to them by [ptr]. *)

Definition ptr : Type := nat.

(** A custom property: a string, or a group (what a Python [dict] becomes
    when it is stored on a data-block). *)
#[warnings="-register-all"]
Inductive idprop : Type :=
| PString (s : string)
| PGroup (g : gmap string idprop).

Module Library.
Record t : Type := Make { name : string }.
End Library.

(** A collection is known by its name and the library it comes from.  Its
    member list is the host's to keep: see [data_collections] below. *)
Module Collection.
Record t : Type := Make {
  name : string;
  library : option Library.t
}.

(** Two references denote the same collection. *)
Definition eqb (c1 c2 : t) : bool :=
  String.eqb (name c1) (name c2) &&
  match library c1, library c2 with
  | Some l1, Some l2 => String.eqb (Library.name l1) (Library.name l2)
  | None, None => true
  | _, _ => false
  end.
End Collection.

Module Object.
Record t : Type := Make {
  name : string;
  instance_collection : option Collection.t;
  props : gmap string idprop
}.

(** [obj[key] = value] *)
Definition setitem (key : string) (value : idprop) (obj : t) : t :=
  {| name := name obj;
     instance_collection := instance_collection obj;
     props := <[key := value]> (props obj) |}.
End Object.

(** The keyword arguments of [bpy.ops.export_scene.gltf], lines 44-62. *)
Record gltf_kwargs : Type := GltfKwargs {
  filepath : string;
  check_existing : bool;
  export_format : string;
  export_image_format : string;
  use_visible : bool;
  export_extras : bool;
  export_skins : bool;
  export_animations : bool;
  export_def_bones : bool;
  export_morph : bool;
  export_optimize_animation_size : bool;
  export_yup : bool;
  export_texcoords : bool;
  export_normals : bool;
  export_tangents : bool;
  export_morph_normal : bool;
  export_morph_tangent : bool;
  export_materials : string;
  export_colors : bool
}.

(** What the hook asks of the host, in the order it asks. *)
Inductive request : Type :=
| ObjectsRemove (p : ptr)
| ExportSceneGltf (kw : gltf_kwargs).

Record bpy : Type := Bpy {
  data_filepath : string;                      (* bpy.data.filepath *)
  data_objects : list (ptr * Object.t);        (* bpy.data.objects, in its order *)
  data_collections : list (Collection.t * list ptr);
                                               (* each collection's [objects] *)
  requests : list request                      (* oldest first *)
}.

Definition set_data_objects (objs : list (ptr * Object.t)) (w : bpy) : bpy :=
  {| data_filepath := data_filepath w;
     data_objects := objs;
     data_collections := data_collections w;
     requests := requests w |}.

Definition log_request (r : request) (w : bpy) : bpy :=
  {| data_filepath := data_filepath w;
     data_objects := data_objects w;
     data_collections := data_collections w;
     requests := requests w ++ [r] |}.

(** The object a pointer denotes, if it is still in the file. *)
Fixpoint find_object (p : ptr) (objs : list (ptr * Object.t)) : option Object.t :=
  match objs with
  | [] => None
  | (q, o) :: objs' => if Nat.eqb q p then Some o else find_object p objs'
  end.

Definition update_object (p : ptr) (f : Object.t -> Object.t)
    (objs : list (ptr * Object.t)) : list (ptr * Object.t) :=
  map (fun qo => if Nat.eqb (fst qo) p then (fst qo, f (snd qo)) else qo) objs.

Definition delete_object (p : ptr) (objs : list (ptr * Object.t)) :
    list (ptr * Object.t) :=
  List.filter (fun qo => negb (Nat.eqb (fst qo) p)) objs.

(** The pointers of the objects in the file: the scene's object set. *)
Definition object_set (w : bpy) : list ptr := map fst (data_objects w).

(** The member list the host keeps for a collection. *)
Fixpoint find_members (coll : Collection.t)
    (colls : list (Collection.t * list ptr)) : list ptr :=
  match colls with
  | [] => []
  | (c, ms) :: colls' =>
      if Collection.eqb c coll then ms else find_members coll colls'
  end.

(** [coll.objects], as the host answers it in the state [w]. *)
Definition collection_objects (coll : Collection.t) (w : bpy) : list ptr :=
  find_members coll (data_collections w).

(** The host takes a removed object out of every collection. *)
Definition unlink_object (p : ptr) (colls : list (Collection.t * list ptr)) :
    list (Collection.t * list ptr) :=
  map (fun cm => (fst cm, List.filter (fun m => negb (Nat.eqb m p)) (snd cm))) colls.

(** ** The hook *)

Section Hook.

(** [bpy.path.basename], the host's: the file name of a path. *)
Variable basename : string -> string.

(** What [bpy.data.objects.remove] does when it is handed an object that is
    not in the file: raise [e] ([Some e]) or do nothing ([None]).  The hook
    is the same in both hosts, and everything below is proved for both. *)
Variable remove_missing : option exn.

(** How the host's exporter ends, given its arguments and the file: it
    returns, or it raises (an I/O failure, a scene it cannot export, an
    argument that this version of the exporter does not know). *)
Variable exporter : gltf_kwargs -> bpy -> outcome unit.

(** [bpy.data.objects.remove(obj)]: the object leaves the file and every
    collection. *)
Definition objects_remove (p : ptr) : M bpy unit :=
  fun w =>
    let w' := log_request (ObjectsRemove p) w in
    match find_object p (data_objects w) with
    | Some _ =>
        (Ok tt,
         {| data_filepath := data_filepath w;
            data_objects := delete_object p (data_objects w);
            data_collections := unlink_object p (data_collections w);
            requests := requests w' |})
    | None => match remove_missing with
              | Some e => (Raise e, w')
              | None => (Ok tt, w')
              end
    end.

(** [obj[key] = value] on the object behind [p]. *)
Definition obj_setitem (p : ptr) (key : string) (value : idprop) : M bpy unit :=
  modify (fun w =>
    set_data_objects (update_object p (Object.setitem key value) (data_objects w)) w).

(** [bpy.ops.export_scene.gltf] called with the keyword arguments [kw]:
    the request is made, and the call ends as the exporter ends. *)
Definition export_scene_gltf (kw : gltf_kwargs) : M bpy unit :=
  fun w => (exporter kw w, log_request (ExportSceneGltf kw) w).

(** The dictionary of lines 35-38. *)
Definition link_marker (coll : Collection.t) (lib : Library.t) : idprop :=
  PGroup (<["source" := PString (removesuffix (Library.name lib) ".blend")]>
          (<["name" := PString (Collection.name coll)]> ∅)).

(** The body of the outer loop, lines 33-40, for the object [obj] that
    [p] denotes.  Line 39 asks the host for the members when the inner loop
    starts; its iterator has moved past a member by the time line 40 removes
    it, so each of them is reached. *)
Definition visit (p : ptr) (obj : Object.t) : M bpy unit :=
  match Object.instance_collection obj with
  | None => ret tt                                            (* continue *)
  | Some coll =>
      match Collection.library coll with
      | None => ret tt                                        (* continue *)
      | Some lib =>
          obj_setitem p "link" (link_marker coll lib) ;;;
          let! w := get in
          for_each (collection_objects coll w) objects_remove
      end
  end.

(** One turn of the outer loop.  The iterator walks the host's own list, so
    an object that an earlier turn removed is no longer reached. *)
Definition loop_body (p : ptr) : M bpy unit :=
  let! w := get in
  match find_object p (data_objects w) with
  | Some obj => visit p obj
  | None => ret tt
  end.

(** Lines 32-40. *)
Definition preprocess : M bpy unit :=
  let! w := get in
  for_each (object_set w) loop_body.

(** Lines 42-63. *)
Definition gltf_call (target_dir target_file : string) (is_debug_mode : bool) :
    gltf_kwargs :=
  {| filepath := target_dir +:+ "/" +:+ target_file;
     check_existing := false;
     export_format := if negb is_debug_mode then "GLB" else "GLTF_SEPARATE";
     export_image_format := if negb is_debug_mode then "AUTO" else "NONE";
     use_visible := false;
     export_extras := true;
     export_skins := true;
     export_animations := true;
     export_def_bones := true;
     export_morph := true;
     export_optimize_animation_size := true;
     export_yup := false;
     export_texcoords := true;
     export_normals := true;
     export_tangents := false;
     export_morph_normal := true;
     export_morph_tangent := false;
     export_materials := "EXPORT";
     export_colors := false |}.

(** The handler, lines 10-63. *)
Definition export (argv : list string) : M bpy unit :=
  let v := parse_args argv in
  let! w := get in
  let blend_file := basename (data_filepath w) in
  let target_file := removesuffix blend_file ".blend" in
  preprocess ;;;
  export_scene_gltf (gltf_call (target_dir v) target_file (is_debug_mode v)).

End Hook.

(** ** Notions the statements use *)

(** [n] copies of the character [c]. *)
Fixpoint repeat_char (c : ascii) (n : nat) : string :=
  match n with
  | O => EmptyString
  | S n' => String c (repeat_char c n')
  end.

(** The object list after the removal of [ms], one after the other. *)
Definition remove_all (ms : list ptr) (objs : list (ptr * Object.t)) :
    list (ptr * Object.t) :=
  foldl (fun acc m => delete_object m acc) objs ms.

(** The member lists after the removal of [ms], one after the other. *)
Definition unlink_all (ms : list ptr) (colls : list (Collection.t * list ptr)) :
    list (Collection.t * list ptr) :=
  foldl (fun acc m => unlink_object m acc) colls ms.

(** The collection and library that make the loop body act on an object:
    the negation of the guard of line 33. *)
Definition linked_instance (obj : Object.t) : option (Collection.t * Library.t) :=
  match Object.instance_collection obj with
  | Some coll =>
      match Collection.library coll with
      | Some lib => Some (coll, lib)
      | None => None
      end
  | None => None
  end.

(** The object with the marker of its own linked instance collection. *)
Definition tagged (obj : Object.t) : Object.t :=
  match linked_instance obj with
  | Some (coll, lib) => Object.setitem "link" (link_marker coll lib) obj
  | None => obj
  end.

(** The file after line 35 ran for the object behind [p]. *)
Definition with_marker (p : ptr) (coll : Collection.t) (lib : Library.t)
    (w : bpy) : bpy :=
  set_data_objects
    (update_object p (Object.setitem "link" (link_marker coll lib))
       (data_objects w)) w.

(** The file after the objects [ms], all of them in the file, were removed
    on request. *)
Definition after_removals (ms : list ptr) (w : bpy) : bpy :=
  {| data_filepath := data_filepath w;
     data_objects := remove_all ms (data_objects w);
     data_collections := unlink_all ms (data_collections w);
     requests := requests w ++ map ObjectsRemove ms |}.

(** [w'] holds no object that [w] did not hold, and an object of [w'] is the
    one [w] had, with at most its own marker added; a collection of [w'] has
    no member it did not have in [w], and has lost none that is still in the
    file. *)
Definition shrinks (w w' : bpy) : Prop :=
  (forall q o', find_object q (data_objects w') = Some o' ->
     exists o, find_object q (data_objects w) = Some o /\
               (o' = o \/ o' = tagged o)) /\
  (forall coll m, m ∈ collection_objects coll w' -> m ∈ collection_objects coll w) /\
  (forall coll m, m ∈ collection_objects coll w ->
     m ∈ collection_objects coll w' \/ find_object m (data_objects w') = None).

(** [p] is a member of no linked instance collection that an object of the
    file instances: no turn of the loop asks for its removal. *)
Definition never_a_member (p : ptr) (w : bpy) : Prop :=
  forall q o coll lib,
    find_object q (data_objects w) = Some o ->
    linked_instance o = Some (coll, lib) ->
    p ∉ collection_objects coll w.

(** Every object other than those of [ps] instances nothing linked. *)
Definition others_idle (ps : list ptr) (w : bpy) : Prop :=
  forall q o, q ∉ ps -> find_object q (data_objects w) = Some o ->
              linked_instance o = None.

(** The members of every collection are objects of the file, as the host
    keeps it. *)
Definition members_in_file (w : bpy) : Prop :=
  forall coll m, m ∈ collection_objects coll w -> m ∈ object_set w.

(** The keyword arguments with another path. *)
Definition set_filepath (path : string) (kw : gltf_kwargs) : gltf_kwargs :=
  {| filepath := path;
     check_existing := check_existing kw;
     export_format := export_format kw;
     export_image_format := export_image_format kw;
     use_visible := use_visible kw;
     export_extras := export_extras kw;
     export_skins := export_skins kw;
     export_animations := export_animations kw;
     export_def_bones := export_def_bones kw;
     export_morph := export_morph kw;
     export_optimize_animation_size := export_optimize_animation_size kw;
     export_yup := export_yup kw;
     export_texcoords := export_texcoords kw;
     export_normals := export_normals kw;
     export_tangents := export_tangents kw;
     export_morph_normal := export_morph_normal kw;
     export_morph_tangent := export_morph_tangent kw;
     export_materials := export_materials kw;
     export_colors := export_colors kw |}.

(** What a run of the pass, or of a part of it, does to the file: the
    document path stays, the object list loses the objects [ms] whose removal
    was requested and keeps its order, and an exception is the host's, raised
    for a last request [m] that was made before or aimed at no object of the
    file. *)
Definition pass_effect (remove_missing : option exn) (w : bpy)
    (r : outcome unit) (w' : bpy) : Prop :=
  data_filepath w' = data_filepath w /\
  sublist (object_set w') (object_set w) /\
  exists ms,
    requests w' = requests w ++ map ObjectsRemove ms /\
    (forall q, q ∈ object_set w' <-> q ∈ object_set w /\ q ∉ ms) /\
    match r with
    | Ok _ => True
    | Raise e =>
        remove_missing = Some e /\
        exists ms0 m, ms = ms0 ++ [m] /\ (m ∉ object_set w \/ m ∈ ms0)
    end.

(** A file on which the pass has nothing left to do: every instance of a
    linked collection carries its marker and the members it had are gone. *)
Definition settled (w : bpy) : Prop :=
  forall p o, find_object p (data_objects w) = Some o ->
    tagged o = o /\
    forall coll lib m, linked_instance o = Some (coll, lib) ->
      m ∈ collection_objects coll w -> find_object m (data_objects w) = None.

(** ** Example files *)

Definition props_lib : Library.t := Library.Make "props.blend".
Definition tree : Collection.t := Collection.Make "Tree" (Some props_lib).
Definition grove : Collection.t := Collection.Make "Grove" (Some props_lib).
Definition rocks : Collection.t := Collection.Make "Rocks" None.

Definition plain (name : string) : Object.t := Object.Make name None ∅.
Definition instance (name : string) (coll : Collection.t) : Object.t :=
  Object.Make name (Some coll) ∅.
Definition marked (name : string) (coll : Collection.t) (lib : Library.t) :
    Object.t :=
  Object.setitem "link" (link_marker coll lib) (instance name coll).

(** One instance of the linked collection [tree], whose two members are in
    the file, next to a local collection and its instance. *)
Definition flat_scene : bpy :=
  {| data_filepath := "/home/me/level.blend";
     data_objects := [(3, plain "trunk"); (1, instance "tree.000" tree);
                      (4, plain "leaves"); (5, plain "rock");
                      (6, instance "rocks.000" rocks)];
     data_collections := [(tree, [3; 4]); (rocks, [5])];
     requests := [] |}.

Definition flat_scene_after : bpy :=
  {| data_filepath := "/home/me/level.blend";
     data_objects := [(1, marked "tree.000" tree props_lib);
                      (5, plain "rock"); (6, instance "rocks.000" rocks)];
     data_collections := [(tree, []); (rocks, [5])];
     requests := [ObjectsRemove 3; ObjectsRemove 4] |}.

(** A linked collection [grove] whose member is itself an instance of the
    linked collection [tree]. *)
Definition nested_scene : bpy :=
  {| data_filepath := "/home/me/level.blend";
     data_objects := [(1, instance "tree.000" tree); (2, instance "grove.000" grove);
                      (3, plain "trunk"); (4, plain "leaves")];
     data_collections := [(tree, [3; 4]); (grove, [1])];
     requests := [] |}.

Definition nested_scene_after : bpy :=
  {| data_filepath := "/home/me/level.blend";
     data_objects := [(2, marked "grove.000" grove props_lib)];
     data_collections := [(tree, []); (grove, [])];
     requests := [ObjectsRemove 3; ObjectsRemove 4; ObjectsRemove 1] |}.





(** An exporter that returns, and one that rejects its arguments. *)
Definition exporter_returns : gltf_kwargs -> bpy -> outcome unit :=
  fun _ _ => Ok tt.

(** A host's [basename]: what follows the last ["/"]. *)
Fixpoint posix_basename (path : string) : string :=
  match path with
  | EmptyString => EmptyString
  | String c path' =>
      if char_in "/" path' then posix_basename path'
      else if Ascii.eqb c "/" then path'
      else String c path'
  end.

(** * Proofs *)

Ltac decide_closed := apply (bool_decide_unpack _); vm_compute; exact I.

Ltac split_elem_of H :=
  repeat (apply elem_of_cons in H as [H|H]); [..|now apply elem_of_nil in H].

(** ** String and list methods *)

Lemma index_first (x : string) (pre post : list string) :
  x ∉ pre -> index x (pre ++ x :: post) = Ok (length pre).
Proof.
  induction pre as [|y pre IH]; intros Hx; simpl.
  - now rewrite String.eqb_refl.
  - apply not_elem_of_cons in Hx as [Hne Hx].
    destruct (String.eqb_spec y x) as [->|_]; [done|].
    now rewrite IH.
Qed.

Lemma index_absent (x : string) (l : list string) :
  x ∉ l -> index x l = Raise ValueError.
Proof.
  induction l as [|y l IH]; intros Hx; simpl; [done|].
  apply not_elem_of_cons in Hx as [Hne Hx].
  destruct (String.eqb_spec y x) as [->|_]; [done|].
  now rewrite IH.
Qed.

Lemma index_Ok_inv (x : string) (l : list string) (i : nat) :
  index x l = Ok i ->
  exists pre post, l = pre ++ x :: post /\ (x ∉ pre) /\ i = length pre.
Proof.
  revert i. induction l as [|y l IH]; intros i; simpl; [done|].
  destruct (String.eqb_spec y x) as [->|Hne].
  - intros [= <-]. exists [], l. repeat split. apply not_elem_of_nil.
  - destruct (index x l) as [j|e] eqn:E; [|done].
    intros [= <-]. destruct (IH j eq_refl) as (pre & post & -> & Hpre & ->).
    exists (y :: pre), post. repeat split.
    apply not_elem_of_cons. split; [congruence|done].
Qed.

Lemma contains_elem_of (x : string) (l : list string) :
  contains x l = true <-> x ∈ l.
Proof.
  unfold contains. rewrite existsb_exists. split.
  - intros (y & Hin & Heq). apply String.eqb_eq in Heq as ->.
    now apply list_elem_of_In.
  - intros Hin. exists x. split; [now apply list_elem_of_In|apply String.eqb_refl].
Qed.

Lemma append_nil_l (t : string) : "" +:+ t = t.
Proof. reflexivity. Qed.

Lemma append_cons_l (c : ascii) (s t : string) :
  String c s +:+ t = String c (s +:+ t).
Proof. reflexivity. Qed.

Lemma rstrip_cons (c : ascii) (s chars : string) :
  rstrip (String c s) chars =
    match rstrip s chars with
    | EmptyString => if char_in c chars then EmptyString else String c EmptyString
    | r => String c r
    end.
Proof. reflexivity. Qed.

Lemma char_in_slash (c : ascii) : char_in c "/" = Ascii.eqb c "/".
Proof. simpl. apply orb_false_r. Qed.

Lemma rstrip_slash_split (s : string) :
  exists n, s = rstrip s "/" +:+ repeat_char "/" n.
Proof.
  induction s as [|c s [n IH]]; [now exists 0|].
  rewrite rstrip_cons, char_in_slash.
  destruct (rstrip s "/") as [|c' r] eqn:E.
  - rewrite append_nil_l in IH.
    destruct (Ascii.eqb_spec c "/") as [->|_].
    + exists (S n). rewrite append_nil_l. simpl. now rewrite <- IH.
    + exists n. rewrite append_cons_l, append_nil_l. now rewrite <- IH.
  - exists n. rewrite append_cons_l. now rewrite <- IH.
Qed.

Lemma rstrip_slash_no_trailing (s t : string) :
  rstrip s "/" <> t +:+ "/".
Proof.
  revert t. induction s as [|c s IH]; intros t.
  - now destruct t.
  - rewrite rstrip_cons, char_in_slash.
    destruct (rstrip s "/") as [|c' r] eqn:E.
    + destruct (Ascii.eqb_spec c "/") as [->|Hc].
      * now destruct t.
      * destruct t as [|c2 t]; [rewrite append_nil_l; congruence|].
        rewrite append_cons_l. intros [= _ Ht]. now destruct t.
    + destruct t as [|c2 t]; [rewrite append_nil_l; congruence|].
      rewrite append_cons_l. intros [= _ Ht]. now apply (IH t).
Qed.

Lemma string_length_app (s t : string) :
  String.length (s +:+ t) = String.length s + String.length t.
Proof.
  induction s as [|c s IH]; [done|].
  rewrite append_cons_l. simpl. now rewrite IH.
Qed.

Lemma substring_0_length_app (s t : string) :
  String.substring 0 (String.length s) (s +:+ t) = s.
Proof.
  induction s as [|c s IH]; [now destruct t|].
  rewrite append_cons_l. simpl. now rewrite IH.
Qed.

Lemma substring_0_length (t : string) :
  String.substring 0 (String.length t) t = t.
Proof. induction t as [|c t IH]; simpl; [done|now rewrite IH]. Qed.

Lemma substring_skip_app (s t : string) :
  String.substring (String.length s) (String.length t) (s +:+ t) = t.
Proof.
  induction s as [|c s IH]; [apply substring_0_length|].
  rewrite append_cons_l. simpl. apply IH.
Qed.

Lemma endswith_app (s t : string) : endswith (s +:+ t) t = true.
Proof.
  unfold endswith. rewrite string_length_app.
  replace (String.length s + String.length t - String.length t)
    with (String.length s) by lia.
  rewrite substring_skip_app, String.eqb_refl, andb_true_r.
  apply Nat.leb_le. lia.
Qed.

Lemma removesuffix_app (s t : string) :
  t <> "" -> removesuffix (s +:+ t) t = s.
Proof.
  intros Ht. unfold removesuffix. rewrite endswith_app.
  destruct (String.eqb_spec t "") as [->|_]; [done|]. simpl.
  rewrite string_length_app.
  replace (String.length s + String.length t - String.length t)
    with (String.length s) by lia.
  apply substring_0_length_app.
Qed.

Lemma removesuffix_other (s t : string) :
  endswith s t = false -> removesuffix s t = s.
Proof. intros H. unfold removesuffix. now rewrite H, andb_false_r. Qed.

(** ** The command line *)

(** What the [try] block does once the separator is found. *)
Lemma parse_body_sep (pre args : list string) (v : locals) :
  "--" ∉ pre ->
  parse_body (pre ++ "--" :: args) v =
    match args with
    | [] => (Raise IndexError, v)
    | a0 :: _ =>
        (Ok tt,
         {| target_dir := if startswith a0 "-" then target_dir v
                          else rstrip a0 "/";
            is_debug_mode := if contains "--debug" args then true
                             else is_debug_mode v |})
    end.
Proof.
  intros Hpre. unfold parse_body, bind, lift.
  rewrite (index_first _ _ _ Hpre).
  replace (length pre + 1) with (length (pre ++ ["--"])) by (rewrite length_app; simpl; lia).
  replace (pre ++ "--" :: args) with ((pre ++ ["--"]) ++ args) by now rewrite <- app_assoc.
  rewrite drop_app_length.
  destruct args as [|a0 rest]; [done|].
  destruct v as [d b]. unfold getitem. cbn [lookup list_lookup].
  destruct (startswith a0 "-"), (contains "--debug" (a0 :: rest)); reflexivity.
Qed.

Lemma parse_body_nosep (argv : list string) (v : locals) :
  "--" ∉ argv -> parse_body argv v = (Raise ValueError, v).
Proof.
  intros H. unfold parse_body, bind, lift. now rewrite (index_absent _ _ H).
Qed.

Lemma parse_args_sep (pre : list string) (a0 : string) (rest : list string) :
  "--" ∉ pre ->
  parse_args (pre ++ "--" :: a0 :: rest) =
    {| target_dir := if startswith a0 "-" then "." else rstrip a0 "/";
       is_debug_mode := contains "--debug" (a0 :: rest) |}.
Proof.
  intros Hpre. unfold parse_args, try_except_pass.
  rewrite (parse_body_sep _ _ _ Hpre). cbn [snd initial_locals target_dir is_debug_mode].
  now destruct (contains "--debug" (a0 :: rest)).
Qed.

Lemma parse_args_sep_nil (pre : list string) :
  "--" ∉ pre -> parse_args (pre ++ ["--"]) = initial_locals.
Proof.
  intros Hpre. unfold parse_args, try_except_pass.
  now rewrite (parse_body_sep _ _ _ Hpre).
Qed.

Lemma parse_args_nosep (argv : list string) :
  "--" ∉ argv -> parse_args argv = initial_locals.
Proof.
  intros H. unfold parse_args, try_except_pass.
  now rewrite (parse_body_nosep _ _ H).
Qed.

(** Every command line either has no separator or splits at its first one. *)
Lemma argv_split (argv : list string) :
  "--" ∉ argv \/
  exists pre args, argv = pre ++ "--" :: args /\ ("--" ∉ pre).
Proof.
  destruct (index "--" argv) as [i|e] eqn:E.
  - right. destruct (index_Ok_inv _ _ _ E) as (pre & post & -> & H & _). eauto.
  - left. intros Hin. apply list_elem_of_split in Hin as (l1 & l2 & ->).
    revert E. clear. induction l1 as [|y l1 IH]; simpl; [done|].
    destruct (String.eqb y "--"); [done|].
    destruct (index "--" (l1 ++ "--" :: l2)); [done|auto].
Qed.

Lemma first_split_unique (x : string) (pre pre' post post' : list string) :
  x ∉ pre -> x ∉ pre' -> pre ++ x :: post = pre' ++ x :: post' ->
  pre = pre' /\ post = post'.
Proof.
  intros H H' E.
  assert (Hlen : length pre = length pre').
  { pose proof (index_first x pre post H) as I.
    rewrite E, (index_first x pre' post' H') in I. congruence. }
  apply app_inj_1 in E as [-> [= ->]]; done.
Qed.

(** C2, as stated, fails: Blender's own [--debug] switch, given before the
    separator, is in the process argument list, yet the hook's debug mode
    stays off. *)
Lemma debug_flag_before_separator_is_ignored :
  ~ (forall argv : list string,
       is_debug_mode (parse_args argv) = true <-> "--debug" ∈ argv).
Proof.
  intros H.
  destruct (H ["blender"; "--debug"; "-b"; "level.blend"; "--python";
               "export.py"; "--"; "out"]) as [_ H'].
  assert (Hin : "--debug" ∈ ["blender"; "--debug"; "-b"; "level.blend";
                             "--python"; "export.py"; "--"; "out"])
    by decide_closed.
  specialize (H' Hin). vm_compute in H'. discriminate.
Qed.

(** C2 (amended): debug mode is on if and only if ["--debug"] is among
    the arguments that follow the first ["--"] of the process argument list;
    in every other case it keeps its default, off. *)
Theorem debug_mode_iff_flag_after_separator (argv : list string) :
  is_debug_mode (parse_args argv) = true <->
  exists pre args,
    argv = pre ++ "--" :: args /\ ("--" ∉ pre) /\ ("--debug" ∈ args).
Proof.
  destruct (argv_split argv) as [Hno|(pre & args & -> & Hpre)].
  - rewrite (parse_args_nosep _ Hno). split; [done|].
    intros (pre & args & -> & _ & _). exfalso. apply Hno.
    apply elem_of_app. right. apply list_elem_of_here.
  - destruct args as [|a0 rest].
    + rewrite (parse_args_sep_nil _ Hpre). split; [done|].
      intros (pre' & args' & E & Hpre' & Hin).
      destruct (first_split_unique _ _ _ _ _ Hpre Hpre' E) as [_ <-].
      now apply elem_of_nil in Hin.
    + rewrite (parse_args_sep _ _ _ Hpre). cbn [is_debug_mode].
      rewrite contains_elem_of. split.
      * intros Hin. now exists pre, (a0 :: rest).
      * intros (pre' & args' & E & Hpre' & Hin).
        now destruct (first_split_unique _ _ _ _ _ Hpre Hpre' E) as [_ <-].
Qed.

(** C3: when the argument list has no ["--"], or nothing after its first
    ["--"], the [try] block raises, the exception is swallowed, and both
    settings keep their defaults: directory ["."], debug mode off. *)
Theorem missing_arguments_keep_defaults (argv : list string) :
  ("--" ∉ argv) \/ (exists pre, argv = pre ++ ["--"] /\ ("--" ∉ pre)) ->
  (exists e, parse_body argv initial_locals = (Raise e, initial_locals)) /\
  try_except_pass (parse_body argv) initial_locals = (Ok tt, initial_locals) /\
  target_dir (parse_args argv) = "." /\
  is_debug_mode (parse_args argv) = false.
Proof.
  intros [Hno|(pre & -> & Hpre)].
  - assert (E := parse_body_nosep argv initial_locals Hno).
    unfold parse_args, try_except_pass. rewrite E. eauto.
  - assert (E := parse_body_sep pre [] initial_locals Hpre).
    unfold parse_args, try_except_pass. rewrite E. eauto.
Qed.

Lemma missing_arguments_keep_defaults_witness :
  (("--" ∉ ["blender"; "-b"; "level.blend"]) /\
   parse_args ["blender"; "-b"; "level.blend"] = Locals "." false) /\
  ((exists pre, ["blender"; "--"] = pre ++ ["--"] /\ ("--" ∉ pre)) /\
   parse_args ["blender"; "--"] = Locals "." false).
Proof.
  assert (H1 : "--" ∉ ["blender"; "-b"; "level.blend"]) by decide_closed.
  assert (H2 : exists pre, ["blender"; "--"] = pre ++ ["--"] /\ ("--" ∉ pre)).
  { exists ["blender"]. split; [reflexivity|decide_closed]. }
  split; (split; [assumption|]).
  - destruct (missing_arguments_keep_defaults _ (or_introl H1)) as (_ & _ & Hd & Hb).
    reflexivity.
  - destruct (missing_arguments_keep_defaults _ (or_intror H2)) as (_ & _ & Hd & Hb).
    reflexivity.
Defined.

(** C4: when the first argument after the ["--"] separator does not start
    with ["-"], the directory is that argument without its trailing ["/"]
    characters; when it does start with ["-"], the directory stays ["."],
    and a ["--debug"] there or later still turns debug mode on. *)
Theorem first_argument_is_directory (pre : list string) (a0 : string)
    (rest : list string) :
  "--" ∉ pre ->
  let v := parse_args (pre ++ "--" :: a0 :: rest) in
  (startswith a0 "-" = false ->
     target_dir v = rstrip a0 "/" /\
     (exists n, a0 = target_dir v +:+ repeat_char "/" n) /\
     (forall t, target_dir v <> t +:+ "/")) /\
  (startswith a0 "-" = true ->
     target_dir v = "." /\
     ("--debug" ∈ a0 :: rest -> is_debug_mode v = true)).
Proof.
  intros Hpre v. subst v. rewrite (parse_args_sep _ _ _ Hpre).
  cbn [target_dir is_debug_mode]. split; intros ->.
  - split; [done|]. split; [apply rstrip_slash_split|apply rstrip_slash_no_trailing].
  - split; [done|]. apply contains_elem_of.
Qed.

Lemma first_argument_is_directory_witness :
  (("--" ∉ ["blender"; "-b"]) /\ startswith "out//" "-" = false /\
   target_dir (parse_args ["blender"; "-b"; "--"; "out//"; "--debug"]) = "out") /\
  (("--" ∉ ["blender"]) /\ startswith "--debug" "-" = true /\
   parse_args ["blender"; "--"; "--debug"] = Locals "." true).
Proof.
  assert (H1 : "--" ∉ ["blender"; "-b"]) by decide_closed.
  assert (H2 : "--" ∉ ["blender"]) by decide_closed.
  split; (split; [assumption|split; [reflexivity|]]).
  - destruct (first_argument_is_directory _ "out//" ["--debug"] H1) as [Hd _].
    destruct (Hd eq_refl) as (E & _). exact E.
  - destruct (first_argument_is_directory _ "--debug" [] H2) as [_ Hf].
    destruct (Hf eq_refl) as (Hd & Hb). reflexivity.
Defined.

(** ** The object list *)

Lemma find_object_update (q p : ptr) (f : Object.t -> Object.t)
    (objs : list (ptr * Object.t)) :
  find_object q (update_object p f objs) =
    if decide (q = p) then f <$> find_object q objs else find_object q objs.
Proof.
  induction objs as [|[r o] objs IH]; simpl; [now destruct (decide _)|].
  destruct (Nat.eqb_spec r p) as [->|Hrp]; simpl.
  - destruct (Nat.eqb_spec p q) as [->|Hpq].
    + now rewrite decide_True.
    + rewrite IH. now destruct (decide (q = p)).
  - destruct (Nat.eqb_spec r q) as [->|Hrq].
    + now rewrite decide_False.
    + apply IH.
Qed.

Lemma find_object_delete (q p : ptr) (objs : list (ptr * Object.t)) :
  find_object q (delete_object p objs) =
    if decide (q = p) then None else find_object q objs.
Proof.
  induction objs as [|[r o] objs IH]; simpl; [now destruct (decide _)|].
  destruct (Nat.eqb_spec r p) as [->|Hrp]; simpl.
  - rewrite IH. destruct (decide (q = p)) as [->|Hqp]; [done|].
    destruct (Nat.eqb_spec p q); [congruence|done].
  - rewrite IH. destruct (Nat.eqb_spec r q) as [->|Hrq]; [|done].
    now rewrite decide_False.
Qed.

Lemma find_object_None (p : ptr) (objs : list (ptr * Object.t)) :
  find_object p objs = None <-> p ∉ map fst objs.
Proof.
  induction objs as [|[r o] objs IH]; simpl.
  - split; [intros _; apply not_elem_of_nil|done].
  - rewrite not_elem_of_cons. destruct (Nat.eqb_spec r p) as [->|Hrp].
    + split; [done|]. now intros [? _].
    + rewrite IH. split; [intros ?; split; [congruence|done]|now intros [_ ?]].
Qed.

Lemma find_object_is_Some (p : ptr) (objs : list (ptr * Object.t)) :
  is_Some (find_object p objs) <-> p ∈ map fst objs.
Proof.
  rewrite <- not_eq_None_Some, find_object_None.
  destruct (decide (p ∈ map fst objs)); naive_solver.
Qed.

Lemma delete_object_missing (p : ptr) (objs : list (ptr * Object.t)) :
  find_object p objs = None -> delete_object p objs = objs.
Proof.
  induction objs as [|[r o] objs IH]; simpl; [done|].
  destruct (Nat.eqb_spec r p) as [->|Hrp]; [done|]. simpl.
  intros H. now rewrite IH.
Qed.

(** In a file whose pointers are distinct, the entries of the object list are
    exactly what [find_object] returns. *)
Lemma find_object_elem_of (p : ptr) (o : Object.t) (objs : list (ptr * Object.t)) :
  NoDup (map fst objs) ->
  (p, o) ∈ objs <-> find_object p objs = Some o.
Proof.
  induction objs as [|[r o'] objs IH]; simpl; intros Hnd.
  - split; [intros H; now apply elem_of_nil in H|done].
  - apply NoDup_cons in Hnd as [Hr Hnd]. rewrite elem_of_cons, (IH Hnd).
    destruct (Nat.eqb_spec r p) as [->|Hrp].
    + split; [intros [[= ->]|H]; [done|]|intros [= ->]; now left].
      exfalso. apply Hr. apply find_object_is_Some. eauto.
    + split; [intros [[= ? ?]|H]; [congruence|done]|now right].
Qed.

Lemma map_fst_update_object (p : ptr) (f : Object.t -> Object.t)
    (objs : list (ptr * Object.t)) :
  map fst (update_object p f objs) = map fst objs.
Proof.
  unfold update_object. rewrite map_map. apply map_ext.
  intros [r o]. simpl. now destruct (Nat.eqb r p).
Qed.

Lemma NoDup_delete_object (p : ptr) (objs : list (ptr * Object.t)) :
  NoDup (map fst objs) -> NoDup (map fst (delete_object p objs)).
Proof.
  induction objs as [|[r o] objs IH]; simpl; [done|].
  intros [Hr Hnd]%NoDup_cons. destruct (Nat.eqb r p); simpl; [auto|].
  apply NoDup_cons. split; [|auto].
  intros Hin. apply Hr. apply find_object_is_Some.
  apply find_object_is_Some in Hin as [o' Ho']. rewrite find_object_delete in Ho'.
  destruct (decide (r = p)); [done|eauto].
Qed.

Lemma find_object_remove_all (q : ptr) (ms : list ptr)
    (objs : list (ptr * Object.t)) :
  find_object q (remove_all ms objs) =
    if decide (q ∈ ms) then None else find_object q objs.
Proof.
  revert objs. induction ms as [|m ms IH]; intros objs.
  - destruct (decide (q ∈ [])) as [H|_]; [now apply elem_of_nil in H|done].
  - unfold remove_all in *. cbn [foldl]. rewrite IH, find_object_delete.
    destruct (decide (q ∈ m :: ms)) as [[->|Hin]%elem_of_cons|Hni].
    + destruct (decide (m ∈ ms)); [done|now rewrite decide_True].
    + now rewrite decide_True.
    + apply not_elem_of_cons in Hni as [Hne Hni].
      now rewrite decide_False, decide_False.
Qed.

Lemma NoDup_remove_all (ms : list ptr) (objs : list (ptr * Object.t)) :
  NoDup (map fst objs) -> NoDup (map fst (remove_all ms objs)).
Proof.
  revert objs. induction ms as [|m ms IH]; intros objs H; [done|].
  apply IH. now apply NoDup_delete_object.
Qed.

(** ** Loops *)

Lemma for_each_cons_Ok {S X} (x : X) (l : list X) (body : X -> M S unit)
    (s s' : S) :
  for_each (x :: l) body s = (Ok tt, s') ->
  exists s1, body x s = (Ok tt, s1) /\ for_each l body s1 = (Ok tt, s').
Proof.
  cbn [for_each]. unfold bind. destruct (body x s) as [[[]|e] s1]; [eauto|done].
Qed.

Lemma for_each_app {S X} (l1 l2 : list X) (body : X -> M S unit) (s : S) :
  for_each (l1 ++ l2) body s =
    match for_each l1 body s with
    | (Ok _, s1) => for_each l2 body s1
    | (Raise e, s1) => (Raise e, s1)
    end.
Proof.
  revert s. induction l1 as [|x l1 IH]; intros s; [done|].
  cbn [app for_each]. unfold bind.
  destruct (body x s) as [[[]|e] s1]; [apply IH|done].
Qed.

(** ** The member lists *)

Lemma elem_of_filter_ne (m p : ptr) (l : list ptr) :
  m ∈ List.filter (fun x => negb (Nat.eqb x p)) l <-> m ∈ l /\ m <> p.
Proof.
  rewrite !list_elem_of_In, filter_In, negb_true_iff, Nat.eqb_neq. tauto.
Qed.

Lemma find_members_unlink (coll : Collection.t) (p : ptr)
    (colls : list (Collection.t * list ptr)) :
  find_members coll (unlink_object p colls) =
    List.filter (fun x => negb (Nat.eqb x p)) (find_members coll colls).
Proof.
  induction colls as [|[c ms] colls IH]; [done|].
  cbn. now destruct (Collection.eqb c coll).
Qed.



(** ** The pre-processing pass *)

Lemma linked_instance_Some (obj : Object.t) (coll : Collection.t) (lib : Library.t) :
  linked_instance obj = Some (coll, lib) <->
  Object.instance_collection obj = Some coll /\ Collection.library coll = Some lib.
Proof.
  unfold linked_instance.
  destruct (Object.instance_collection obj) as [c|]; [|split; [done|now intros [? _]]].
  destruct (Collection.library c) as [l|] eqn:E.
  - split; [intros [= <- <-]; done|intros [[= <-] H]; congruence].
  - split; [done|intros [[= <-] H]; congruence].
Qed.

Lemma linked_instance_None (obj : Object.t) :
  linked_instance obj = None <->
  Object.instance_collection obj = None \/
  exists coll, Object.instance_collection obj = Some coll /\
               Collection.library coll = None.
Proof.
  unfold linked_instance.
  destruct (Object.instance_collection obj) as [c|]; [|split; [now left|done]].
  destruct (Collection.library c) as [l|] eqn:E.
  - split; [done|intros [?|(c' & [= <-] & ?)]; congruence].
  - split; [right; eauto|done].
Qed.

Lemma linked_instance_setitem (k : string) (v : idprop) (obj : Object.t) :
  linked_instance (Object.setitem k v obj) = linked_instance obj.
Proof. reflexivity. Qed.

Lemma linked_instance_tagged (obj : Object.t) :
  linked_instance (tagged obj) = linked_instance obj.
Proof. unfold tagged. now destruct (linked_instance obj) as [[c l]|] eqn:E. Qed.

Lemma tagged_tagged (obj : Object.t) : tagged (tagged obj) = tagged obj.
Proof.
  unfold tagged at 1. rewrite linked_instance_tagged. unfold tagged.
  destruct (linked_instance obj) as [[c l]|] eqn:E; [|done].
  unfold Object.setitem. cbn. now rewrite insert_insert_eq.
Qed.

Lemma after_removals_nil (w : bpy) : after_removals [] w = w.
Proof. destruct w. unfold after_removals. cbn. now rewrite app_nil_r. Qed.

Lemma after_removals_cons (m : ptr) (ms : list ptr) (w : bpy) :
  after_removals (m :: ms) w = after_removals ms (after_removals [m] w).
Proof.
  unfold after_removals. cbn. now rewrite <- app_assoc.
Qed.

Lemma shrinks_same_data (w w' : bpy) :
  data_objects w' = data_objects w ->
  data_collections w' = data_collections w ->
  shrinks w w'.
Proof.
  intros Ho Hc. unfold shrinks, collection_objects. rewrite Ho, Hc.
  split; [eauto|]. split; [done|]. intros coll m Hm. now left.
Qed.

Lemma shrinks_refl (w : bpy) : shrinks w w.
Proof. now apply shrinks_same_data. Qed.

Lemma shrinks_gone (w w' : bpy) (q : ptr) :
  shrinks w w' ->
  find_object q (data_objects w) = None ->
  find_object q (data_objects w') = None.
Proof.
  intros [Hs _] Hq. destruct (find_object q (data_objects w')) as [o'|] eqn:E; [|done].
  destruct (Hs q o' E) as (o & Ho & _). congruence.
Qed.

Lemma shrinks_trans (w1 w2 w3 : bpy) :
  shrinks w1 w2 -> shrinks w2 w3 -> shrinks w1 w3.
Proof.
  intros H12 H23. pose proof (fun q => shrinks_gone w2 w3 q H23) as Hgone.
  destruct H12 as (Ho12 & Hsub12 & Hkeep12), H23 as (Ho23 & Hsub23 & Hkeep23).
  split; [|split].
  - intros q o3 H3.
    destruct (Ho23 q o3 H3) as (o2 & H2 & E23).
    destruct (Ho12 q o2 H2) as (o1 & H1 & E12).
    exists o1. split; [done|].
    destruct E23 as [-> | ->], E12 as [-> | ->]; rewrite ?tagged_tagged; auto.
  - intros coll m Hm. apply Hsub12, Hsub23, Hm.
  - intros coll m Hm. destruct (Hkeep12 coll m Hm) as [H2|H2].
    + apply Hkeep23, H2.
    + right. apply Hgone, H2.
Qed.

Section Pass.

Variable remove_missing : option exn.

Lemma objects_remove_present (p : ptr) (w : bpy) :
  is_Some (find_object p (data_objects w)) ->
  objects_remove remove_missing p w = (Ok tt, after_removals [p] w).
Proof. intros [o E]. unfold objects_remove. now rewrite E. Qed.

Lemma after_removals_shrinks (p : ptr) (w : bpy) : shrinks w (after_removals [p] w).
Proof.
  split; [|split].
  - intros q o'. cbn. rewrite find_object_delete.
    destruct (decide (q = p)); [done|eauto].
  - intros coll m. unfold collection_objects. cbn.
    rewrite find_members_unlink, elem_of_filter_ne. now intros [? _].
  - intros coll m Hm. unfold collection_objects. cbn.
    rewrite find_members_unlink, elem_of_filter_ne, find_object_delete.
    destruct (decide (m = p)); [now right|now left].
Qed.

(** A removal that returns: what it leaves. *)
Lemma objects_remove_Ok (p : ptr) (w w' : bpy) :
  objects_remove remove_missing p w = (Ok tt, w') ->
  shrinks w w' /\
  data_objects w' = delete_object p (data_objects w).
Proof.
  destruct (find_object p (data_objects w)) as [o|] eqn:E.
  - rewrite objects_remove_present by eauto. intros [= <-].
    split; [apply after_removals_shrinks|done].
  - unfold objects_remove. rewrite E.
    destruct remove_missing; [done|]. intros [= <-].
    split; [now apply shrinks_same_data|]. cbn. now rewrite delete_object_missing.
Qed.

Lemma remove_loop_Ok (ms : list ptr) (w w' : bpy) :
  for_each ms (objects_remove remove_missing) w = (Ok tt, w') ->
  shrinks w w' /\
  data_objects w' = remove_all ms (data_objects w).
Proof.
  revert w. induction ms as [|m ms IH]; intros w.
  - intros [= <-]. split; [apply shrinks_refl|done].
  - intros (w1 & H1 & H2)%for_each_cons_Ok.
    apply objects_remove_Ok in H1 as [Hs1 Ho1]. apply IH in H2 as [Hs2 Ho2].
    split; [now apply shrinks_trans with w1|].
    rewrite Ho2, Ho1. reflexivity.
Qed.

(** Distinct objects that are all in the file are removed without error. *)
Lemma remove_loop_present (ms : list ptr) (w : bpy) :
  NoDup ms ->
  (forall m, m ∈ ms -> is_Some (find_object m (data_objects w))) ->
  for_each ms (objects_remove remove_missing) w = (Ok tt, after_removals ms w).
Proof.
  revert w. induction ms as [|m ms IH]; intros w Hnd Hin.
  - now rewrite after_removals_nil.
  - apply NoDup_cons in Hnd as [Hm Hnd]. cbn [for_each]. unfold bind.
    rewrite objects_remove_present by (apply Hin, list_elem_of_here).
    rewrite (after_removals_cons m ms). apply IH; [done|].
    intros m' Hm'. cbn. unfold remove_all. cbn.
    rewrite find_object_delete, decide_False by (intros ->; done).
    apply Hin. now apply elem_of_cons; right.
Qed.

(** A host that ignores stale removals never fails. *)
Lemma remove_loop_ignored (ms : list ptr) (w : bpy) :
  remove_missing = None ->
  exists w', for_each ms (objects_remove remove_missing) w = (Ok tt, w').
Proof.
  intros Hrm. revert w. induction ms as [|m ms IH]; intros w; [now exists w|].
  assert (H1 : exists w1, objects_remove remove_missing m w = (Ok tt, w1)).
  { unfold objects_remove. rewrite Hrm.
    destruct (find_object m (data_objects w)); eauto. }
  destruct H1 as [w1 H1]. cbn [for_each]. unfold bind. rewrite H1. apply IH.
Qed.

(** Removals of objects that are gone, on a host that ignores them, only
    add to the request log. *)
Lemma remove_loop_missing_ignored (ms : list ptr) (w : bpy) :
  remove_missing = None ->
  (forall m, m ∈ ms -> find_object m (data_objects w) = None) ->
  exists w', for_each ms (objects_remove remove_missing) w = (Ok tt, w') /\
             data_objects w' = data_objects w /\
             data_collections w' = data_collections w.
Proof.
  intros Hrm. revert w. induction ms as [|m ms IH]; intros w Hgone; [now exists w|].
  assert (H1 : objects_remove remove_missing m w
               = (Ok tt, log_request (ObjectsRemove m) w)).
  { unfold objects_remove. now rewrite (Hgone m (list_elem_of_here _ _)), Hrm. }
  cbn [for_each]. unfold bind. rewrite H1.
  apply (IH (log_request (ObjectsRemove m) w)).
  intros m' Hm'. apply Hgone. now apply elem_of_cons; right.
Qed.

(** A host that raises on a stale removal stops the loop at the first one,
    after the request was made. *)
Lemma remove_loop_raises (e : exn) (m : ptr) (ms : list ptr) (w : bpy) :
  remove_missing = Some e ->
  find_object m (data_objects w) = None ->
  for_each (m :: ms) (objects_remove remove_missing) w =
    (Raise e, log_request (ObjectsRemove m) w).
Proof.
  intros Hrm Hm.
  assert (H1 : objects_remove remove_missing m w
               = (Raise e, log_request (ObjectsRemove m) w))
    by (unfold objects_remove; now rewrite Hm, Hrm).
  cbn [for_each]. unfold bind. now rewrite H1.
Qed.

Lemma visit_instances (p : ptr) (obj : Object.t) (w : bpy) :
  visit remove_missing p obj w =
    match linked_instance obj with
    | Some (coll, lib) =>
        for_each (collection_objects coll w) (objects_remove remove_missing)
          (with_marker p coll lib w)
    | None => (Ok tt, w)
    end.
Proof.
  unfold visit, linked_instance.
  destruct (Object.instance_collection obj) as [c|]; [|done].
  now destruct (Collection.library c).
Qed.

Lemma loop_body_unfold (p : ptr) (w : bpy) :
  loop_body remove_missing p w =
    match find_object p (data_objects w) with
    | Some obj => visit remove_missing p obj w
    | None => (Ok tt, w)
    end.
Proof.
  unfold loop_body, bind, get.
  now destruct (find_object p (data_objects w)).
Qed.

(** The three ways one turn of the loop can end well. *)
Lemma loop_body_Ok (p : ptr) (w w' : bpy) :
  loop_body remove_missing p w = (Ok tt, w') ->
  (find_object p (data_objects w) = None /\ w' = w) \/
  (exists obj, find_object p (data_objects w) = Some obj /\
     linked_instance obj = None /\ w' = w) \/
  (exists obj coll lib, find_object p (data_objects w) = Some obj /\
     linked_instance obj = Some (coll, lib) /\
     for_each (collection_objects coll w) (objects_remove remove_missing)
       (with_marker p coll lib w) = (Ok tt, w')).
Proof.
  rewrite loop_body_unfold.
  destruct (find_object p (data_objects w)) as [obj|] eqn:Hp.
  - rewrite visit_instances.
    destruct (linked_instance obj) as [[coll lib]|] eqn:Hl.
    + intros H. right; right. eauto 10.
    + intros [= <-]. right; left. eauto.
  - intros [= <-]. now left.
Qed.

Lemma find_object_with_marker (q p : ptr) (coll : Collection.t) (lib : Library.t)
    (w : bpy) :
  find_object q (data_objects (with_marker p coll lib w)) =
    if decide (q = p)
    then Object.setitem "link" (link_marker coll lib) <$> find_object q (data_objects w)
    else find_object q (data_objects w).
Proof. apply find_object_update. Qed.

(** The objects after a turn that ended well. *)
Lemma find_object_turn (q p : ptr) (coll : Collection.t) (lib : Library.t)
    (ms : list ptr) (w w' : bpy) :
  for_each ms (objects_remove remove_missing) (with_marker p coll lib w)
    = (Ok tt, w') ->
  find_object q (data_objects w') =
    if decide (q ∈ ms) then None
    else if decide (q = p)
         then Object.setitem "link" (link_marker coll lib)
                <$> find_object q (data_objects w)
         else find_object q (data_objects w).
Proof.
  intros [_ Ho]%remove_loop_Ok.
  now rewrite Ho, find_object_remove_all, find_object_with_marker.
Qed.

Lemma with_marker_shrinks (p : ptr) (obj : Object.t) (coll : Collection.t)
    (lib : Library.t) (w : bpy) :
  find_object p (data_objects w) = Some obj ->
  linked_instance obj = Some (coll, lib) ->
  shrinks w (with_marker p coll lib w).
Proof.
  intros Hp Hl. split; [|split; [done|now left]].
  intros q o'. rewrite find_object_with_marker.
  destruct (decide (q = p)) as [->|Hne]; [|eauto].
  rewrite Hp. intros [= <-]. exists obj. split; [done|].
  right. unfold tagged. now rewrite Hl.
Qed.

Lemma loop_body_shrinks (p : ptr) (w w' : bpy) :
  loop_body remove_missing p w = (Ok tt, w') -> shrinks w w'.
Proof.
  intros [[_ ->]|[(obj & _ & _ & ->)|(obj & coll & lib & Hp & Hl & Hrun)]]%loop_body_Ok;
    [apply shrinks_refl..|].
  eapply shrinks_trans; [exact (with_marker_shrinks _ _ _ _ _ Hp Hl)|].
  exact (proj1 (remove_loop_Ok _ _ _ Hrun)).
Qed.

Lemma loop_shrinks (l : list ptr) (w w' : bpy) :
  for_each l (loop_body remove_missing) w = (Ok tt, w') -> shrinks w w'.
Proof.
  revert w. induction l as [|p l IH]; intros w.
  - intros [= <-]. apply shrinks_refl.
  - intros (w1 & H1 & H2)%for_each_cons_Ok.
    eapply shrinks_trans; [eapply loop_body_shrinks|eapply IH]; eauto.
Qed.

Lemma loop_NoDup (l : list ptr) (w w' : bpy) :
  for_each l (loop_body remove_missing) w = (Ok tt, w') ->
  NoDup (object_set w) -> NoDup (object_set w').
Proof.
  revert w. induction l as [|p l IH]; intros w.
  - now intros [= <-].
  - intros (w1 & H1 & H2)%for_each_cons_Ok Hnd. apply (IH _ H2).
    apply loop_body_Ok in H1
      as [[_ ->]|[(obj & _ & _ & ->)|(obj & coll & lib & _ & _ & Hrun)]]; [done..|].
    apply remove_loop_Ok in Hrun as [_ Ho].
    unfold object_set. rewrite Ho. apply NoDup_remove_all. cbn.
    now rewrite map_fst_update_object.
Qed.

(** Once the loop has passed an object that is still there at the end, the
    members its linked instance collection had are gone. *)
Lemma loop_visited (l : list ptr) (w w' : bpy) :
  for_each l (loop_body remove_missing) w = (Ok tt, w') ->
  forall p obj coll lib m,
    p ∈ l ->
    find_object p (data_objects w') = Some obj ->
    linked_instance obj = Some (coll, lib) ->
    m ∈ collection_objects coll w ->
    find_object m (data_objects w') = None.
Proof.
  revert w. induction l as [|x l IH]; intros w Hrun p obj coll lib m Hp Hobj Hl Hm.
  - now apply elem_of_nil in Hp.
  - apply for_each_cons_Ok in Hrun as (w1 & H1 & H2).
    pose proof (loop_shrinks _ _ _ H2) as Hs2.
    destruct (decide (p ∈ l)) as [Hin|Hni].
    { destruct (proj2 (proj2 (loop_body_shrinks _ _ _ H1)) coll m Hm) as [Hm1|Hm1].
      - exact (IH _ H2 p obj coll lib m Hin Hobj Hl Hm1).
      - exact (shrinks_gone _ _ _ Hs2 Hm1). }
    apply elem_of_cons in Hp as [->|?]; [|done].
    destruct (proj1 Hs2 _ _ Hobj) as (o1 & Ho1 & E1).
    assert (Hl1 : linked_instance o1 = Some (coll, lib)).
    { destruct E1 as [-> | ->]; [done|now rewrite linked_instance_tagged in Hl]. }
    apply (shrinks_gone w1 w' m Hs2).
    apply loop_body_Ok in H1
      as [[E ->]|[(o0 & E & Hn & ->)|(o0 & c0 & l0 & E & Hl0 & Hrun)]];
      [congruence..|].
    rewrite (find_object_turn _ _ _ _ _ _ _ Hrun) in Ho1.
    rewrite (find_object_turn _ _ _ _ _ _ _ Hrun).
    destruct (decide (x ∈ collection_objects c0 w)); [done|].
    rewrite decide_True, E in Ho1 by done. injection Ho1 as <-.
    rewrite linked_instance_setitem in Hl1.
    assert (c0 = coll) as -> by congruence.
    now rewrite decide_True.
Qed.

(** Turns over objects that are gone or instance nothing linked change
    nothing. *)
Lemma loop_noop (l : list ptr) (w : bpy) :
  (forall q o, q ∈ l -> find_object q (data_objects w) = Some o ->
               linked_instance o = None) ->
  for_each l (loop_body remove_missing) w = (Ok tt, w).
Proof.
  induction l as [|q l IH]; intros H; [done|].
  cbn [for_each]. unfold bind. rewrite loop_body_unfold.
  destruct (find_object q (data_objects w)) as [o|] eqn:E.
  - rewrite visit_instances, (H q o (list_elem_of_here _ _) E).
    apply IH. intros q' o' Hq'. apply H. now apply elem_of_cons; right.
  - apply IH. intros q' o' Hq'. apply H. now apply elem_of_cons; right.
Qed.

Lemma never_a_member_shrinks (p : ptr) (w w' : bpy) :
  shrinks w w' -> never_a_member p w -> never_a_member p w'.
Proof.
  intros (Hs & Hsub & _) Hn q o' coll lib Hq Hl Hin.
  destruct (Hs q o' Hq) as (o & Ho & E). apply (Hn q o coll lib Ho); [|auto].
  destruct E as [-> | ->]; [done|now rewrite linked_instance_tagged in Hl].
Qed.

Lemma loop_body_keeps (p q : ptr) (o : Object.t) (w w1 : bpy) :
  loop_body remove_missing q w = (Ok tt, w1) ->
  never_a_member p w ->
  find_object p (data_objects w) = Some o ->
  find_object p (data_objects w1) =
    Some (if decide (q = p) then tagged o else o).
Proof.
  intros Hrun Hn Hp. apply loop_body_Ok in Hrun
    as [[E ->]|[(o0 & E & Hl & ->)|(o0 & c0 & l0 & E & Hl & Hrun)]].
  - destruct (decide (q = p)) as [->|_]; [congruence|done].
  - destruct (decide (q = p)) as [->|_]; [|done].
    unfold tagged. assert (o0 = o) as -> by congruence. now rewrite Hl.
  - rewrite (find_object_turn _ _ _ _ _ _ _ Hrun).
    rewrite (decide_False (P := p ∈ collection_objects c0 w))
      by exact (Hn q o0 c0 l0 E Hl).
    destruct (decide (q = p)) as [->|Hne].
    + rewrite decide_True, Hp by done. assert (o0 = o) as -> by congruence.
      unfold tagged. now rewrite Hl.
    + rewrite decide_False by congruence. done.
Qed.

(** An object that is never a member comes out of the loop with its marker
    if the loop reached it, and untouched if not. *)
Lemma loop_keeps (l : list ptr) (p : ptr) (o : Object.t) (w w' : bpy) :
  for_each l (loop_body remove_missing) w = (Ok tt, w') ->
  never_a_member p w ->
  find_object p (data_objects w) = Some o ->
  find_object p (data_objects w') =
    Some (if decide (p ∈ l) then tagged o else o).
Proof.
  revert w o. induction l as [|q l IH]; intros w o Hrun Hn Hp.
  - injection Hrun as <-. rewrite decide_False; [done|apply not_elem_of_nil].
  - apply for_each_cons_Ok in Hrun as (w1 & H1 & H2).
    pose proof (loop_body_keeps p q o w w1 H1 Hn Hp) as Hp1.
    rewrite (IH w1 _ H2 (never_a_member_shrinks _ _ _ (loop_body_shrinks _ _ _ H1) Hn) Hp1).
    f_equal. destruct (decide (q = p)) as [->|Hne].
    + rewrite (decide_True (P := p ∈ p :: l)) by apply list_elem_of_here.
      rewrite tagged_tagged. now destruct (decide (p ∈ l)).
    + destruct (decide (p ∈ l)) as [Hin|Hni].
      * rewrite decide_True; [done|now apply elem_of_cons; right].
      * rewrite decide_False; [done|].
        rewrite elem_of_cons. intros [?|?]; congruence.
Qed.

Lemma preprocess_unfold (w : bpy) :
  preprocess remove_missing w =
    for_each (object_set w) (loop_body remove_missing) w.
Proof. reflexivity. Qed.

(** The handler is the pass followed by the one export request; nothing
    catches what the pass or the exporter raises. *)
Lemma export_unfold (basename : string -> string)
    (exporter : gltf_kwargs -> bpy -> outcome unit) (argv : list string) (w : bpy) :
  export basename remove_missing exporter argv w =
    match preprocess remove_missing w with
    | (Ok _, w1) =>
        let kw := gltf_call (target_dir (parse_args argv))
                    (removesuffix (basename (data_filepath w)) ".blend")
                    (is_debug_mode (parse_args argv)) in
        (exporter kw w1, log_request (ExportSceneGltf kw) w1)
    | (Raise e, w1) => (Raise e, w1)
    end.
Proof.
  unfold export, bind, get, export_scene_gltf.
  now destruct (preprocess remove_missing w) as [[[]|e] w1].
Qed.

Lemma others_idle_shrinks (ps : list ptr) (w w' : bpy) :
  shrinks w w' -> others_idle ps w -> others_idle ps w'.
Proof.
  intros [Hs _] Hidle q o' Hq Ho'.
  destruct (Hs q o' Ho') as (o & Ho & E).
  pose proof (Hidle q o Hq Ho) as Hl.
  destruct E as [-> | ->]; [done|now rewrite linked_instance_tagged].
Qed.

Lemma others_idle_noop (ps l : list ptr) (w : bpy) :
  others_idle ps w -> (forall q, q ∈ l -> q ∉ ps) ->
  for_each l (loop_body remove_missing) w = (Ok tt, w).
Proof. intros Hidle Hl. apply loop_noop. intros q o Hq. apply Hidle, Hl, Hq. Qed.

Lemma loop_body_linked (p : ptr) (obj : Object.t) (coll : Collection.t)
    (lib : Library.t) (w : bpy) :
  find_object p (data_objects w) = Some obj ->
  linked_instance obj = Some (coll, lib) ->
  loop_body remove_missing p w =
    for_each (collection_objects coll w) (objects_remove remove_missing)
      (with_marker p coll lib w).
Proof. intros Hp Hl. now rewrite loop_body_unfold, Hp, visit_instances, Hl. Qed.

(** The turn of an instance whose members are distinct objects of the
    file. *)
Lemma loop_body_present (p : ptr) (obj : Object.t) (coll : Collection.t)
    (lib : Library.t) (w : bpy) :
  find_object p (data_objects w) = Some obj ->
  linked_instance obj = Some (coll, lib) ->
  NoDup (collection_objects coll w) ->
  (forall m, m ∈ collection_objects coll w -> m ∈ object_set w) ->
  loop_body remove_missing p w =
    (Ok tt, after_removals (collection_objects coll w) (with_marker p coll lib w)).
Proof.
  intros Hp Hl Hnd Hpresent. rewrite (loop_body_linked p obj coll lib w Hp Hl).
  apply remove_loop_present; [done|].
  intros m Hm. rewrite find_object_with_marker.
  apply Hpresent, find_object_is_Some in Hm as [o Ho]. rewrite Ho.
  destruct (decide (m = p)); eauto.
Qed.

(** The pass over a file in which [r] alone instances a linked collection,
    whose members are distinct objects of the file. *)
Lemma preprocess_single (w : bpy) (r : ptr) (obj : Object.t)
    (coll : Collection.t) (lib : Library.t) :
  NoDup (object_set w) ->
  find_object r (data_objects w) = Some obj ->
  linked_instance obj = Some (coll, lib) ->
  others_idle [r] w ->
  NoDup (collection_objects coll w) ->
  (forall m, m ∈ collection_objects coll w -> m ∈ object_set w) ->
  preprocess remove_missing w =
    (Ok tt, after_removals (collection_objects coll w) (with_marker r coll lib w)).
Proof.
  intros Hnd Hr Hl Hidle Hms Hpresent. rewrite preprocess_unfold.
  assert (Hin : r ∈ object_set w) by (apply find_object_is_Some; eauto).
  apply list_elem_of_split in Hin as (l1 & l2 & Hsplit). rewrite Hsplit in Hnd |- *.
  apply NoDup_app in Hnd as (_ & Hl1 & [Hl2 _]%NoDup_cons).
  rewrite for_each_app, (others_idle_noop [r] l1 w Hidle).
  2:{ intros q Hq ->%list_elem_of_singleton. now apply (Hl1 r), list_elem_of_here. }
  pose proof (loop_body_present r obj coll lib w Hr Hl Hms Hpresent) as Hturn.
  cbn [for_each]. unfold bind. rewrite Hturn.
  apply others_idle_noop with (ps := [r]).
  - exact (others_idle_shrinks _ _ _ (loop_body_shrinks _ _ _ Hturn) Hidle).
  - intros q Hq ->%list_elem_of_singleton. done.
Qed.

End Pass.

(** ** The claims about the pass *)




(** C8: for an object without an instance collection, or whose instance
    collection has no library, the loop body does nothing: the file, its
    custom properties and the requests made of the host are unchanged. *)
Theorem unlinked_object_is_skipped (remove_missing : option exn) (p : ptr)
    (obj : Object.t) (w : bpy) :
  Object.instance_collection obj = None \/
  (exists coll, Object.instance_collection obj = Some coll /\
                Collection.library coll = None) ->
  visit remove_missing p obj w = (Ok tt, w) /\
  (find_object p (data_objects w) = Some obj ->
   loop_body remove_missing p w = (Ok tt, w)).
Proof.
  intros H%linked_instance_None.
  assert (E : visit remove_missing p obj w = (Ok tt, w))
    by now rewrite visit_instances, H.
  split; [done|]. intros Hp. now rewrite loop_body_unfold, Hp.
Qed.

(** C10 (amended): an object that instances a linked collection keeps its
    place in the object set, with ["link"] set and nothing else changed,
    provided it is itself a member of no linked instance collection of the
    file; and whatever object is left after the pass differs from what it
    was at most in its ["link"] property. *)
Theorem marked_object_outside_linked_collections_remains
    (remove_missing : option exn) (w w' : bpy) (p : ptr) (obj : Object.t)
    (coll : Collection.t) (lib : Library.t) :
  NoDup (object_set w) ->
  preprocess remove_missing w = (Ok tt, w') ->
  (p, obj) ∈ data_objects w ->
  Object.instance_collection obj = Some coll ->
  Collection.library coll = Some lib ->
  (forall q o c l, (q, o) ∈ data_objects w ->
     Object.instance_collection o = Some c -> Collection.library c = Some l ->
     p ∉ collection_objects c w) ->
  (p, Object.setitem "link" (link_marker coll lib) obj) ∈ data_objects w' /\
  p ∈ object_set w' /\
  (forall q o', (q, o') ∈ data_objects w' ->
     exists o, (q, o) ∈ data_objects w /\
       Object.name o' = Object.name o /\
       Object.instance_collection o' = Object.instance_collection o /\
       forall k, k <> "link" -> Object.props o' !! k = Object.props o !! k).
Proof.
  intros Hnd Hrun Hin Hic Hlib Hfree. rewrite preprocess_unfold in Hrun.
  pose proof (loop_NoDup _ _ _ _ Hrun Hnd) as Hnd'.
  apply (find_object_elem_of _ _ _ Hnd) in Hin.
  assert (Hl : linked_instance obj = Some (coll, lib)) by now apply linked_instance_Some.
  assert (Hn : never_a_member p w).
  { intros q o c l Hq [? ?]%linked_instance_Some.
    apply (Hfree q o c l); [now apply find_object_elem_of|done..]. }
  pose proof (loop_keeps _ _ p obj _ _ Hrun Hn Hin) as Hp'.
  rewrite decide_True in Hp' by (apply find_object_is_Some; eauto).
  unfold tagged in Hp'. rewrite Hl in Hp'.
  split; [now apply find_object_elem_of|].
  split; [apply find_object_is_Some; eauto|].
  intros q o' Hq'%(find_object_elem_of _ _ _ Hnd').
  destruct (proj1 (loop_shrinks _ _ _ _ Hrun) q o' Hq') as (o & Ho & E).
  exists o. split; [now apply find_object_elem_of|].
  destruct E as [-> | ->]; [done|]. unfold tagged.
  destruct (linked_instance o) as [[c l]|]; [|done].
  repeat split; intros k Hk. cbn. now rewrite lookup_insert_ne.
Qed.

Lemma unlinked_object_is_skipped_witness :
  (Object.instance_collection (plain "rock") = None /\
   visit None 5 (plain "rock") flat_scene = (Ok tt, flat_scene)) /\
  ((exists coll, Object.instance_collection (instance "rocks.000" rocks) = Some coll /\
                 Collection.library coll = None) /\
   loop_body (Some ReferenceError) 6 flat_scene = (Ok tt, flat_scene)).
Proof.
  assert (H2 : exists coll,
             Object.instance_collection (instance "rocks.000" rocks) = Some coll /\
             Collection.library coll = None) by (exists rocks; split; reflexivity).
  split; (split; [first [reflexivity|exact H2]|]).
  - exact (proj1 (unlinked_object_is_skipped None 5 (plain "rock") flat_scene
                    (or_introl eq_refl))).
  - exact (proj2 (unlinked_object_is_skipped (Some ReferenceError) 6
                    (instance "rocks.000" rocks) flat_scene (or_intror H2))
             eq_refl).
Defined.

(** C10, as stated, fails: in [nested_scene] the first turn gives object 1
    its marker, and the second turn, for the instance of [grove], removes
    object 1 as a member of [grove]. *)
Lemma marked_object_removed_as_member :
  exists w1 o1,
    loop_body (Some ReferenceError) 1 nested_scene = (Ok tt, w1) /\
    find_object 1 (data_objects w1) = Some o1 /\
    Object.props o1 !! "link" = Some (link_marker tree props_lib) /\
    preprocess (Some ReferenceError) nested_scene = (Ok tt, nested_scene_after) /\
    1 ∉ object_set nested_scene_after.
Proof.
  eexists _, _. split; [vm_compute; reflexivity|].
  split; [vm_compute; reflexivity|].
  split; [vm_compute; reflexivity|].
  split; [vm_compute; reflexivity|decide_closed].
Qed.

Lemma marked_object_outside_linked_collections_remains_witness :
  NoDup (object_set flat_scene) /\
  preprocess (Some ReferenceError) flat_scene = (Ok tt, flat_scene_after) /\
  (1, Object.setitem "link" (link_marker tree props_lib) (instance "tree.000" tree))
    ∈ data_objects flat_scene_after.
Proof.
  assert (H1 : NoDup (object_set flat_scene)) by decide_closed.
  assert (H2 : preprocess (Some ReferenceError) flat_scene = (Ok tt, flat_scene_after))
    by (vm_compute; reflexivity).
  split; [exact H1|]. split; [exact H2|].
  refine (proj1 (marked_object_outside_linked_collections_remains _ _ _ 1
                   (instance "tree.000" tree) tree props_lib H1 H2 _ eq_refl eq_refl _)).
  - apply list_elem_of_further, list_elem_of_here.
  - intros q o c l Hin Hic Hlib. cbn in Hin.
    split_elem_of Hin; injection Hin as -> ->; cbn in Hic; try discriminate;
      injection Hic as <-; cbn in Hlib; try discriminate; decide_closed.
Defined.

(** The objects after the turn of an instance all of whose members were in
    the file. *)
Lemma find_object_after_removals (q p : ptr) (coll : Collection.t)
    (lib : Library.t) (ms : list ptr) (w : bpy) :
  find_object q (data_objects (after_removals ms (with_marker p coll lib w))) =
    if decide (q ∈ ms) then None
    else if decide (q = p)
         then Object.setitem "link" (link_marker coll lib)
                <$> find_object q (data_objects w)
         else find_object q (data_objects w).
Proof. cbn. now rewrite find_object_remove_all, find_object_update. Qed.

(** C5: in a file where one object [r] instances a library-backed collection
    with the two members [m1] and [m2], the pass completes; afterwards [r]
    holds under ["link"] a group whose ["source"] is the library's name
    without its [".blend"] suffix and whose ["name"] is the collection's
    name, and neither [m1] nor [m2] is in the object set. *)
Theorem single_linked_instance_becomes_marker (remove_missing : option exn)
    (w : bpy) (r m1 m2 : ptr) (obj : Object.t) (coll : Collection.t)
    (lib : Library.t) :
  NoDup (object_set w) ->
  (r, obj) ∈ data_objects w ->
  Object.instance_collection obj = Some coll ->
  Collection.library coll = Some lib ->
  collection_objects coll w = [m1; m2] ->
  m1 <> m2 -> r <> m1 -> r <> m2 ->
  m1 ∈ object_set w -> m2 ∈ object_set w ->
  (forall q o c, (q, o) ∈ data_objects w -> q <> r ->
     Object.instance_collection o = Some c -> Collection.library c = None) ->
  exists w' obj' g,
    preprocess remove_missing w = (Ok tt, w') /\
    (r, obj') ∈ data_objects w' /\
    Object.props obj' !! "link" = Some (PGroup g) /\
    g !! "source" = Some (PString (removesuffix (Library.name lib) ".blend")) /\
    g !! "name" = Some (PString (Collection.name coll)) /\
    (m1 ∉ object_set w') /\ (m2 ∉ object_set w').
Proof.
  intros Hnd Hr Hic Hlib Hms Hm12 Hr1 Hr2 Hm1 Hm2 Hothers.
  apply (find_object_elem_of _ _ _ Hnd) in Hr.
  assert (Hl : linked_instance obj = Some (coll, lib)) by now apply linked_instance_Some.
  assert (Hrun : preprocess remove_missing w =
            (Ok tt, after_removals (collection_objects coll w) (with_marker r coll lib w))).
  { apply (preprocess_single _ w r obj coll lib Hnd Hr Hl).
    - intros q o Hq Ho. apply linked_instance_None.
      destruct (Object.instance_collection o) as [c|] eqn:Hc; [right|now left].
      exists c. split; [done|]. apply (Hothers q o c); [| |done].
      + now apply find_object_elem_of.
      + intros ->. apply Hq, list_elem_of_here.
    - rewrite Hms. apply NoDup_cons. split; [|apply NoDup_singleton].
      now intros ->%list_elem_of_singleton.
    - rewrite Hms. intros m [->|[->|[]%elem_of_nil]%elem_of_cons]%elem_of_cons; done. }
  eexists _, (Object.setitem "link" (link_marker coll lib) obj), _.
  split; [exact Hrun|].
  assert (Hnd' : NoDup (object_set
            (after_removals (collection_objects coll w) (with_marker r coll lib w)))).
  { rewrite preprocess_unfold in Hrun. exact (loop_NoDup _ _ _ _ Hrun Hnd). }
  assert (Hrm : r ∉ [m1; m2]).
  { intros [->|[->|[]%elem_of_nil]%elem_of_cons]%elem_of_cons; done. }
  split.
  { apply (find_object_elem_of _ _ _ Hnd'). rewrite find_object_after_removals, Hms.
    rewrite (decide_False (P := r ∈ [m1; m2])) by done.
    now rewrite decide_True, Hr. }
  split; [apply lookup_insert_eq|].
  split; [apply lookup_insert_eq|].
  split; [rewrite lookup_insert_ne by done; apply lookup_insert_eq|].
  split; apply find_object_None; rewrite find_object_after_removals, Hms, decide_True;
    first [done|apply list_elem_of_here|apply list_elem_of_further, list_elem_of_here].
Qed.

Lemma single_linked_instance_becomes_marker_witness :
  NoDup (object_set flat_scene) /\
  exists w' obj' g,
    preprocess (Some ReferenceError) flat_scene = (Ok tt, w') /\
    (1, obj') ∈ data_objects w' /\
    Object.props obj' !! "link" = Some (PGroup g) /\
    g !! "source" = Some (PString "props") /\
    g !! "name" = Some (PString "Tree") /\
    (3 ∉ object_set w') /\ (4 ∉ object_set w').
Proof.
  assert (H1 : NoDup (object_set flat_scene)) by decide_closed.
  split; [exact H1|].
  refine (single_linked_instance_becomes_marker (Some ReferenceError) flat_scene
            1 3 4 (instance "tree.000" tree) tree props_lib H1 _ eq_refl eq_refl
            eq_refl _ _ _ _ _ _); try decide_closed.
  - apply list_elem_of_further, list_elem_of_here.
  - intros q o c Hin Hq Hic. cbn in Hin.
    split_elem_of Hin; injection Hin as -> ->; cbn in Hic; try discriminate;
      try (injection Hic as <-; reflexivity). now destruct Hq.
Defined.

(** ** Two instances of one linked collection *)





(** ** The export call *)

(** An ignoring host lets the pass run to its end, whatever the file. *)
Lemma loop_ignored_total (l : list ptr) (w : bpy) :
  exists w', for_each l (loop_body None) w = (Ok tt, w').
Proof.
  revert w. induction l as [|p l IH]; intros w; [now exists w|].
  cbn [for_each]. unfold bind. rewrite loop_body_unfold.
  destruct (find_object p (data_objects w)) as [obj|]; [|apply IH].
  rewrite visit_instances. destruct (linked_instance obj) as [[coll lib]|]; [|apply IH].
  destruct (remove_loop_ignored None (collection_objects coll w)
              (with_marker p coll lib w) eq_refl) as [w1 H1].
  rewrite H1. apply IH.
Qed.

Lemma export_unfold_Ok (basename : string -> string) (remove_missing : option exn)
    (exporter : gltf_kwargs -> bpy -> outcome unit) (argv : list string)
    (w w1 : bpy) :
  preprocess remove_missing w = (Ok tt, w1) ->
  export basename remove_missing exporter argv w =
    (exporter
       (gltf_call (target_dir (parse_args argv))
          (removesuffix (basename (data_filepath w)) ".blend")
          (is_debug_mode (parse_args argv))) w1,
     log_request
       (ExportSceneGltf
          (gltf_call (target_dir (parse_args argv))
             (removesuffix (basename (data_filepath w)) ".blend")
             (is_debug_mode (parse_args argv)))) w1).
Proof. intros H. now rewrite export_unfold, H. Qed.

(** C7: the keyword arguments of the export call, the path apart, depend on
    the debug flag alone, which is the one read from the command line:
    ["GLB"] with images ["AUTO"] when it is off, ["GLTF_SEPARATE"] with
    images ["NONE"] when it is on, and [export_colors] false in both. *)
Theorem export_configuration_follows_debug_flag (dir file : string) :
  (export_format (gltf_call dir file false) = "GLB" /\
   export_image_format (gltf_call dir file false) = "AUTO") /\
  (export_format (gltf_call dir file true) = "GLTF_SEPARATE" /\
   export_image_format (gltf_call dir file true) = "NONE") /\
  (forall debug, export_colors (gltf_call dir file debug) = false) /\
  (forall debug dir' file',
     set_filepath "" (gltf_call dir file debug) =
     set_filepath "" (gltf_call dir' file' debug)) /\
  (forall basename exporter argv w, exists w1 file',
     let kw := gltf_call (target_dir (parse_args argv)) file'
                 (is_debug_mode (parse_args argv)) in
     export basename None exporter argv w =
       (exporter kw w1, log_request (ExportSceneGltf kw) w1)).
Proof.
  repeat split.
  intros basename exporter argv w.
  destruct (loop_ignored_total (object_set w) w) as [w1 H1].
  exists w1, (removesuffix (basename (data_filepath w)) ".blend").
  now apply export_unfold_Ok.
Qed.

(** C9: the path given to the exporter is the directory, ["/"], and the
    document's file name without its [".blend"] suffix; the hook appends no
    extension. *)
Theorem export_path_is_directory_and_stem (basename : string -> string)
    (remove_missing : option exn) (exporter : gltf_kwargs -> bpy -> outcome unit)
    (argv : list string) (w w1 : bpy) :
  preprocess remove_missing w = (Ok tt, w1) ->
  exists kw,
    export basename remove_missing exporter argv w =
      (exporter kw w1, log_request (ExportSceneGltf kw) w1) /\
    filepath kw =
      target_dir (parse_args argv) +:+ "/" +:+
      removesuffix (basename (data_filepath w)) ".blend" /\
    (forall stem, basename (data_filepath w) = stem +:+ ".blend" ->
       filepath kw = target_dir (parse_args argv) +:+ "/" +:+ stem) /\
    (endswith (basename (data_filepath w)) ".blend" = false ->
       filepath kw =
         target_dir (parse_args argv) +:+ "/" +:+ basename (data_filepath w)).
Proof.
  intros H. eexists. split; [now apply export_unfold_Ok|].
  cbn [filepath gltf_call]. split; [done|]. split.
  - intros stem ->. now rewrite removesuffix_app.
  - intros E. now rewrite removesuffix_other.
Qed.

Lemma export_path_is_directory_and_stem_witness :
  preprocess (Some ReferenceError) flat_scene = (Ok tt, flat_scene_after) /\
  exists kw,
    export posix_basename (Some ReferenceError) exporter_returns
      ["blender"; "-b"; "level.blend"; "--"; "out/"; "--debug"] flat_scene =
      (Ok tt, log_request (ExportSceneGltf kw) flat_scene_after) /\
    filepath kw = "out/level".
Proof.
  assert (H : preprocess (Some ReferenceError) flat_scene = (Ok tt, flat_scene_after))
    by (vm_compute; reflexivity).
  split; [exact H|].
  destruct (export_path_is_directory_and_stem posix_basename _ exporter_returns
              ["blender"; "-b"; "level.blend"; "--"; "out/"; "--debug"] _ _ H)
    as (kw & Hrun & Hpath & _).
  exists kw. split; [exact Hrun|]. rewrite Hpath. vm_compute. reflexivity.
Defined.

(** * Further properties of the handler *)

(** ** The command line, continued *)

Lemma contains_congr (x : string) (l l' : list string) :
  (x ∈ l <-> x ∈ l') -> contains x l = contains x l'.
Proof.
  intros H. destruct (contains x l) eqn:E, (contains x l') eqn:E'; try done.
  - apply contains_elem_of, H, contains_elem_of in E. congruence.
  - apply contains_elem_of, H, contains_elem_of in E'. congruence.
Qed.

(** X1: what precedes the first ["--"] plays no part, and of what follows
    the first argument after it only the presence of ["--debug"] counts. *)
Theorem only_first_argument_and_debug_flag_count (pre pre' : list string)
    (a0 : string) (rest rest' : list string) :
  "--" ∉ pre -> "--" ∉ pre' ->
  ("--debug" ∈ rest <-> "--debug" ∈ rest') ->
  parse_args (pre ++ "--" :: a0 :: rest) = parse_args (pre' ++ "--" :: a0 :: rest').
Proof.
  intros Hpre Hpre' Hrest.
  rewrite (parse_args_sep _ _ _ Hpre), (parse_args_sep _ _ _ Hpre').
  f_equal. apply contains_congr. rewrite !elem_of_cons. now rewrite Hrest.
Qed.

Lemma only_first_argument_and_debug_flag_count_witness :
  ("--" ∉ ["blender"; "-b"; "level.blend"]) /\ ("--" ∉ ["blender"]) /\
  ("--debug" ∈ ["x"; "--debug"] <-> "--debug" ∈ ["--debug"; "--"; "y"]) /\
  parse_args ["blender"; "-b"; "level.blend"; "--"; "out"; "x"; "--debug"] =
  parse_args ["blender"; "--"; "out"; "--debug"; "--"; "y"].
Proof.
  assert (H1 : "--" ∉ ["blender"; "-b"; "level.blend"]) by decide_closed.
  assert (H2 : "--" ∉ ["blender"]) by decide_closed.
  assert (H3 : "--debug" ∈ ["x"; "--debug"] <-> "--debug" ∈ ["--debug"; "--"; "y"])
    by (split; intros _; decide_closed).
  split; [exact H1|]. split; [exact H2|]. split; [exact H3|].
  exact (only_first_argument_and_debug_flag_count _ _ "out" _ _ H1 H2 H3).
Defined.

(** X2: whatever the command line, the directory the handler settles on
    does not end in ["/"], so the path it builds has the one ["/"] of line 44
    between directory and file name. *)
Theorem target_dir_has_no_trailing_slash (argv : list string) (t : string) :
  target_dir (parse_args argv) <> t +:+ "/".
Proof.
  destruct (argv_split argv) as [Hno|(pre & [|a0 rest] & -> & Hpre)].
  - rewrite (parse_args_nosep _ Hno). now destruct t as [|c [|c' t]].
  - rewrite (parse_args_sep_nil _ Hpre). now destruct t as [|c [|c' t]].
  - rewrite (parse_args_sep _ _ _ Hpre). cbn [target_dir].
    destruct (startswith a0 "-"); [now destruct t as [|c [|c' t]]|].
    apply rstrip_slash_no_trailing.
Qed.

Lemma rstrip_only_slashes (n : nat) : rstrip (repeat_char "/" n) "/" = "".
Proof. induction n as [|n IH]; [done|]. cbn [repeat_char]. now rewrite rstrip_cons, IH. Qed.

Lemma startswith_dash_slashes (n : nat) : startswith (repeat_char "/" n) "-" = false.
Proof. now destruct n. Qed.

(** X3: a first argument that is empty or made of ["/"] alone (the root
    directory) leaves an empty directory, and the path of the export call is
    then ["/"] followed by the file name. *)
Theorem root_or_empty_directory_exports_to_root (pre rest : list string)
    (n : nat) (file : string) (debug : bool) :
  "--" ∉ pre ->
  let v := parse_args (pre ++ "--" :: repeat_char "/" n :: rest) in
  target_dir v = "" /\
  filepath (gltf_call (target_dir v) file debug) = "/" +:+ file.
Proof.
  intros Hpre v. subst v. rewrite (parse_args_sep _ _ _ Hpre). cbn [target_dir].
  rewrite startswith_dash_slashes, rstrip_only_slashes. done.
Qed.

Lemma root_or_empty_directory_exports_to_root_witness :
  ("--" ∉ ["blender"]) /\
  target_dir (parse_args ["blender"; "--"; ""]) = "" /\
  target_dir (parse_args ["blender"; "--"; "//"; "--debug"]) = "" /\
  filepath (gltf_call (target_dir (parse_args ["blender"; "--"; "/"])) "level" false)
    = "/level".
Proof.
  assert (H : "--" ∉ ["blender"]) by decide_closed.
  split; [exact H|].
  split; [exact (proj1 (root_or_empty_directory_exports_to_root _ [] 0 "" false H))|].
  split; [exact (proj1 (root_or_empty_directory_exports_to_root _ ["--debug"] 2 "" false H))|].
  exact (proj2 (root_or_empty_directory_exports_to_root _ [] 1 "level" false H)).
Defined.

(** ** The file name, continued *)

Lemma substring_split (k m : nat) (s : string) :
  k + m = String.length s ->
  s = String.substring 0 k s +:+ String.substring k m s.
Proof.
  revert s. induction k as [|k IH]; intros s Hlen.
  - cbn in Hlen. subst m. rewrite substring_0_length. now destruct s.
  - destruct s as [|c s]; [done|]. cbn in Hlen.
    cbn [String.substring]. rewrite append_cons_l. f_equal. apply IH. lia.
Qed.

Lemma endswith_inv (s t : string) :
  endswith s t = true ->
  s = String.substring 0 (String.length s - String.length t) s +:+ t.
Proof.
  unfold endswith. intros [Hle Heq%String.eqb_eq]%andb_true_iff.
  apply Nat.leb_le in Hle.
  rewrite <- Heq at 2. apply substring_split. lia.
Qed.

(** X4: [endswith] holds exactly of the strings that are something followed
    by the suffix; when it holds for a non-empty suffix, [removesuffix] takes
    off one copy of the suffix and putting it back gives the string again;
    when it does not hold, [removesuffix] returns the string as it is. *)
Theorem removesuffix_round_trip (s suffix : string) :
  (endswith s suffix = true <-> exists stem, s = stem +:+ suffix) /\
  (suffix <> "" -> endswith s suffix = true ->
     removesuffix s suffix +:+ suffix = s) /\
  (endswith s suffix = false -> removesuffix s suffix = s).
Proof.
  split; [|split].
  - split.
    + intros H. eexists. now apply endswith_inv.
    + intros [stem ->]. apply endswith_app.
  - intros Hne H. pose proof (endswith_inv _ _ H) as E.
    unfold removesuffix. rewrite H.
    destruct (String.eqb_spec suffix "") as [->|_]; [done|]. cbn. now rewrite <- E.
  - apply removesuffix_other.
Qed.

Lemma removesuffix_round_trip_witness :
  (".blend" <> "" /\ endswith "level.blend.blend" ".blend" = true /\
   removesuffix "level.blend.blend" ".blend" +:+ ".blend" = "level.blend.blend") /\
  (endswith "level.blend1" ".blend" = false /\
   removesuffix "level.blend1" ".blend" = "level.blend1").
Proof.
  assert (H1 : ".blend" <> "") by discriminate.
  split.
  - split; [exact H1|]. split; [reflexivity|].
    exact (proj1 (proj2 (removesuffix_round_trip "level.blend.blend" ".blend"))
             H1 eq_refl).
  - split; [reflexivity|].
    exact (proj2 (proj2 (removesuffix_round_trip "level.blend1" ".blend")) eq_refl).
Defined.

(** ** What the pass does to the host *)

Lemma object_set_delete (q p : ptr) (objs : list (ptr * Object.t)) :
  q ∈ map fst (delete_object p objs) <-> q ∈ map fst objs /\ q <> p.
Proof.
  rewrite <- !find_object_is_Some, find_object_delete.
  destruct (decide (q = p)) as [->|Hne].
  - split; [now intros [? ?]|now intros [_ ?]].
  - split; [now intros ?|now intros [? _]].
Qed.

Lemma sublist_delete_object (p : ptr) (objs : list (ptr * Object.t)) :
  sublist (map fst (delete_object p objs)) (map fst objs).
Proof.
  induction objs as [|[r o] objs IH]; cbn; [constructor|].
  destruct (Nat.eqb r p); cbn; now constructor.
Qed.

Lemma pass_effect_refl (remove_missing : option exn) (w : bpy) :
  pass_effect remove_missing w (Ok tt) w.
Proof.
  split; [done|]. split; [done|]. exists []. cbn. rewrite app_nil_r.
  split; [done|]. split; [|done].
  intros q. split; [intros ?; split; [done|apply not_elem_of_nil]|now intros [? _]].
Qed.

Lemma pass_effect_trans (remove_missing : option exn) (w w1 w2 : bpy)
    (r : outcome unit) :
  pass_effect remove_missing w (Ok tt) w1 ->
  pass_effect remove_missing w1 r w2 ->
  pass_effect remove_missing w r w2.
Proof.
  intros (Hf1 & Hs1 & ms1 & Hr1 & Hm1 & _) (Hf2 & Hs2 & ms2 & Hr2 & Hm2 & Hraise).
  split; [congruence|]. split; [now transitivity (object_set w1)|].
  exists (ms1 ++ ms2). split; [now rewrite Hr2, Hr1, map_app, app_assoc|].
  split.
  - intros q. rewrite Hm2, Hm1, not_elem_of_app. tauto.
  - destruct r as [[]|e]; [done|].
    destruct Hraise as (Hrm & ms0 & m & -> & Hm). split; [done|].
    exists (ms1 ++ ms0), m. split; [now rewrite app_assoc|].
    destruct Hm as [Hm|Hm].
    + destruct (decide (m ∈ ms1)) as [Hin|Hni].
      * right. apply elem_of_app. now left.
      * left. intros Hw. apply Hm, Hm1. now split.
    + right. apply elem_of_app. now right.
Qed.

Lemma objects_remove_effect (remove_missing : option exn) (m : ptr)
    (w : bpy) (r : outcome unit) (w' : bpy) :
  objects_remove remove_missing m w = (r, w') ->
  pass_effect remove_missing w r w'.
Proof.
  unfold objects_remove.
  destruct (find_object m (data_objects w)) as [o|] eqn:E.
  - intros [= <- <-]. split; [done|]. split; [apply sublist_delete_object|].
    exists [m]. split; [done|]. split; [|done].
    intros q. unfold object_set. cbn. rewrite object_set_delete.
    now rewrite list_elem_of_singleton.
  - assert (Hm : m ∉ object_set w) by now apply find_object_None.
    assert (Hq : forall q, q ∈ object_set w <-> q ∈ object_set w /\ q ∉ [m]).
    { intros q. rewrite list_elem_of_singleton.
      split; [intros Hq; split; [done|now intros ->]|now intros [? _]]. }
    destruct remove_missing as [e|]; intros [= <- <-].
    + split; [done|]. split; [done|]. exists [m]. split; [done|]. split; [exact Hq|].
      split; [done|]. exists [], m. split; [done|now left].
    + split; [done|]. split; [done|]. exists [m]. split; [done|]. now split.
Qed.

Lemma for_each_effect {X} (remove_missing : option exn) (body : X -> M bpy unit) :
  (forall x w r w', body x w = (r, w') -> pass_effect remove_missing w r w') ->
  forall l w r w', for_each l body w = (r, w') -> pass_effect remove_missing w r w'.
Proof.
  intros Hbody l. induction l as [|x l IH]; intros w r w'.
  - intros [= <- <-]. apply pass_effect_refl.
  - cbn [for_each]. unfold bind.
    destruct (body x w) as [[[]|e] w1] eqn:E.
    + intros H. eapply pass_effect_trans; [exact (Hbody _ _ _ _ E)|exact (IH _ _ _ H)].
    + intros [= <- <-]. exact (Hbody _ _ _ _ E).
Qed.

Lemma with_marker_effect (remove_missing : option exn) (p : ptr)
    (coll : Collection.t) (lib : Library.t) (w : bpy) :
  pass_effect remove_missing w (Ok tt) (with_marker p coll lib w).
Proof.
  assert (E : object_set (with_marker p coll lib w) = object_set w)
    by apply map_fst_update_object.
  split; [done|]. split; [now rewrite E|]. exists []. cbn -[with_marker].
  split; [now rewrite app_nil_r|]. split; [|done].
  intros q. rewrite E.
  split; [intros ?; split; [done|apply not_elem_of_nil]|now intros [? _]].
Qed.

Lemma loop_body_effect (remove_missing : option exn) (p : ptr) (w : bpy)
    (r : outcome unit) (w' : bpy) :
  loop_body remove_missing p w = (r, w') -> pass_effect remove_missing w r w'.
Proof.
  rewrite loop_body_unfold.
  destruct (find_object p (data_objects w)) as [obj|];
    [|intros [= <- <-]; apply pass_effect_refl].
  rewrite visit_instances.
  destruct (linked_instance obj) as [[coll lib]|];
    [|intros [= <- <-]; apply pass_effect_refl].
  intros H. eapply pass_effect_trans; [apply with_marker_effect|].
  eapply for_each_effect; [|exact H]. apply objects_remove_effect.
Qed.

Lemma preprocess_effect (remove_missing : option exn) (w : bpy)
    (r : outcome unit) (w' : bpy) :
  preprocess remove_missing w = (r, w') -> pass_effect remove_missing w r w'.
Proof.
  rewrite preprocess_unfold. apply for_each_effect. apply loop_body_effect.
Qed.

(** X5: however the pass ends, it leaves [bpy.data.filepath] alone, asks the
    host for removals and nothing else, adds no object and reorders none:
    the objects left are those that were there and whose removal was not
    requested. *)
Theorem pass_only_removes_requested_objects (remove_missing : option exn)
    (w : bpy) :
  let w' := snd (preprocess remove_missing w) in
  data_filepath w' = data_filepath w /\
  sublist (object_set w') (object_set w) /\
  exists ms,
    requests w' = requests w ++ map ObjectsRemove ms /\
    forall q, q ∈ object_set w' <-> q ∈ object_set w /\ q ∉ ms.
Proof.
  destruct (preprocess remove_missing w) as [r w'] eqn:E. cbn.
  destruct (preprocess_effect _ _ _ _ E) as (Hf & Hs & ms & Hr & Hm & _).
  eauto 10.
Qed.

(** X6: when the handler returns, it has asked for removals and then, once
    and last, for the export, with the arguments of lines 44-62; the objects
    left are those whose removal was not requested. *)
Theorem handler_exports_once_after_the_removals (basename : string -> string)
    (remove_missing : option exn) (exporter : gltf_kwargs -> bpy -> outcome unit)
    (argv : list string) (w w' : bpy) :
  export basename remove_missing exporter argv w = (Ok tt, w') ->
  exists ms,
    requests w' =
      requests w ++ map ObjectsRemove ms ++
      [ExportSceneGltf
         (gltf_call (target_dir (parse_args argv))
            (removesuffix (basename (data_filepath w)) ".blend")
            (is_debug_mode (parse_args argv)))] /\
    (forall q, q ∈ object_set w' <-> q ∈ object_set w /\ q ∉ ms).
Proof.
  rewrite export_unfold.
  destruct (preprocess remove_missing w) as [[[]|e] w1] eqn:E; [|done].
  cbv zeta. intros [= _ <-].
  destruct (preprocess_effect _ _ _ _ E) as (_ & _ & ms & Hr & Hm & _).
  exists ms. split; [|exact Hm]. cbn. now rewrite Hr, <- app_assoc.
Qed.

Lemma handler_exports_once_after_the_removals_witness :
  export posix_basename (Some ReferenceError) exporter_returns
    ["blender"; "--"; "out/"] flat_scene =
    (Ok tt, log_request (ExportSceneGltf (gltf_call "out" "level" false))
              flat_scene_after) /\
  exists ms,
    requests (log_request (ExportSceneGltf (gltf_call "out" "level" false))
                flat_scene_after) =
      map ObjectsRemove ms ++ [ExportSceneGltf (gltf_call "out" "level" false)] /\
    (forall q, q ∈ [1; 5; 6] <-> q ∈ [3; 1; 4; 5; 6] /\ q ∉ ms).
Proof.
  assert (H : export posix_basename (Some ReferenceError) exporter_returns
                ["blender"; "--"; "out/"] flat_scene =
              (Ok tt, log_request (ExportSceneGltf (gltf_call "out" "level" false))
                        flat_scene_after)) by (vm_compute; reflexivity).
  split; [exact H|].
  exact (handler_exports_once_after_the_removals _ _ _ _ _ _ H).
Defined.



(** ** The objects the pass leaves *)

Lemma loop_body_survivor (remove_missing : option exn) (p q : ptr)
    (o o1 : Object.t) (w w1 : bpy) :
  loop_body remove_missing q w = (Ok tt, w1) ->
  find_object p (data_objects w) = Some o ->
  find_object p (data_objects w1) = Some o1 ->
  o1 = if decide (q = p) then tagged o else o.
Proof.
  intros Hrun Hp Hp1. apply loop_body_Ok in Hrun
    as [[E ->]|[(o0 & E & Hl & ->)|(o0 & c0 & l0 & E & Hl & Hrun)]].
  - destruct (decide (q = p)) as [->|_]; congruence.
  - destruct (decide (q = p)) as [->|_]; [|congruence].
    assert (o0 = o) as -> by congruence. unfold tagged. rewrite Hl. congruence.
  - rewrite (find_object_turn _ _ _ _ _ _ _ _ Hrun) in Hp1.
    destruct (decide (p ∈ collection_objects c0 w)); [done|].
    destruct (decide (q = p)) as [->|Hne].
    + rewrite decide_True, Hp in Hp1 by done. assert (o0 = o) as -> by congruence.
      unfold tagged. rewrite Hl. cbn in Hp1. congruence.
    + rewrite decide_False in Hp1 by congruence. congruence.
Qed.

Lemma loop_survivor (remove_missing : option exn) (l : list ptr) (p : ptr)
    (o o' : Object.t) (w w' : bpy) :
  for_each l (loop_body remove_missing) w = (Ok tt, w') ->
  find_object p (data_objects w) = Some o ->
  find_object p (data_objects w') = Some o' ->
  o' = if decide (p ∈ l) then tagged o else o.
Proof.
  revert w o. induction l as [|q l IH]; intros w o Hrun Hp Hp'.
  - injection Hrun as <-. rewrite decide_False by apply not_elem_of_nil. congruence.
  - apply for_each_cons_Ok in Hrun as (w1 & H1 & H2).
    destruct (proj1 (loop_shrinks _ _ _ _ H2) _ _ Hp') as (o1 & Hp1 & _).
    rewrite (IH w1 o1 H2 Hp1 Hp').
    rewrite (loop_body_survivor _ p q o o1 w w1 H1 Hp Hp1).
    destruct (decide (q = p)) as [->|Hne].
    + rewrite (decide_True (P := p ∈ p :: l)) by apply list_elem_of_here.
      rewrite tagged_tagged. now destruct (decide (p ∈ l)).
    + destruct (decide (p ∈ l)) as [Hin|Hni].
      * rewrite decide_True; [done|now apply elem_of_cons; right].
      * rewrite decide_False; [done|].
        rewrite elem_of_cons. intros [?|?]; congruence.
Qed.

(** X8: when the pass completes, every object it leaves is the object that
    was there: with ["link"] set to the marker of its own collection if it
    instances a library-backed collection -- no such instance is left
    without its marker -- and exactly as it was, an earlier ["link"]
    property included, if it does not. *)
Theorem survivors_are_marked_or_untouched (remove_missing : option exn)
    (w w' : bpy) :
  NoDup (object_set w) ->
  preprocess remove_missing w = (Ok tt, w') ->
  forall q o', (q, o') ∈ data_objects w' ->
    exists o, (q, o) ∈ data_objects w /\
      (forall coll lib,
         Object.instance_collection o = Some coll ->
         Collection.library coll = Some lib ->
         o' = Object.setitem "link" (link_marker coll lib) o) /\
      (Object.instance_collection o = None \/
       (exists coll, Object.instance_collection o = Some coll /\
                     Collection.library coll = None) ->
       o' = o).
Proof.
  intros Hnd Hrun q o' Hq'. rewrite preprocess_unfold in Hrun.
  pose proof (loop_NoDup _ _ _ _ Hrun Hnd) as Hnd'.
  apply (find_object_elem_of _ _ _ Hnd') in Hq'.
  destruct (proj1 (loop_shrinks _ _ _ _ Hrun) q o' Hq') as (o & Ho & _).
  pose proof (loop_survivor _ _ q o o' _ _ Hrun Ho Hq') as E.
  rewrite decide_True in E by (apply find_object_is_Some; eauto).
  exists o. split; [now apply find_object_elem_of|]. subst o'. unfold tagged. split.
  - intros coll lib Hic Hlib.
    now rewrite (proj2 (linked_instance_Some o coll lib) (conj Hic Hlib)).
  - intros H%linked_instance_None. now rewrite H.
Qed.

Lemma survivors_are_marked_or_untouched_witness :
  NoDup (object_set flat_scene) /\
  preprocess None flat_scene = (Ok tt, flat_scene_after) /\
  exists o, (6, o) ∈ data_objects flat_scene /\
    (forall coll lib,
       Object.instance_collection o = Some coll ->
       Collection.library coll = Some lib ->
       instance "rocks.000" rocks = Object.setitem "link" (link_marker coll lib) o) /\
    (Object.instance_collection o = None \/
     (exists coll, Object.instance_collection o = Some coll /\
                   Collection.library coll = None) ->
     instance "rocks.000" rocks = o).
Proof.
  assert (H1 : NoDup (object_set flat_scene)) by decide_closed.
  assert (H2 : preprocess None flat_scene = (Ok tt, flat_scene_after))
    by (vm_compute; reflexivity).
  split; [exact H1|]. split; [exact H2|].
  apply (survivors_are_marked_or_untouched None _ _ H1 H2 6 (instance "rocks.000" rocks)).
  do 2 apply list_elem_of_further. apply list_elem_of_here.
Defined.

(** ** Running the pass again *)

Lemma update_object_cons (p r : ptr) (f : Object.t -> Object.t) (o : Object.t)
    (objs : list (ptr * Object.t)) :
  update_object p f ((r, o) :: objs) =
    (if Nat.eqb r p then (r, f o) else (r, o)) :: update_object p f objs.
Proof. reflexivity. Qed.

Lemma update_object_absent (p : ptr) (f : Object.t -> Object.t)
    (objs : list (ptr * Object.t)) :
  p ∉ map fst objs -> update_object p f objs = objs.
Proof.
  induction objs as [|[r o] objs IH]; [done|].
  cbn [map fst]. intros [Hne Hp]%not_elem_of_cons.
  rewrite update_object_cons, (IH Hp).
  destruct (Nat.eqb_spec r p) as [->|_]; done.
Qed.

Lemma update_object_id (p : ptr) (f : Object.t -> Object.t) (o : Object.t)
    (objs : list (ptr * Object.t)) :
  NoDup (map fst objs) -> find_object p objs = Some o -> f o = o ->
  update_object p f objs = objs.
Proof.
  induction objs as [|[r o'] objs IH]; [done|].
  cbn [map fst find_object]. intros [Hr Hnd]%NoDup_cons Hp Hf.
  rewrite update_object_cons.
  destruct (Nat.eqb_spec r p) as [->|Hne].
  - injection Hp as ->. now rewrite Hf, update_object_absent.
  - now rewrite (IH Hnd Hp Hf).
Qed.

Lemma remove_all_missing (ms : list ptr) (objs : list (ptr * Object.t)) :
  (forall m, m ∈ ms -> find_object m objs = None) -> remove_all ms objs = objs.
Proof.
  induction ms as [|m ms IH]; intros H; [done|].
  unfold remove_all in *. cbn [foldl].
  rewrite delete_object_missing by apply H, list_elem_of_here.
  apply IH. intros m' Hm'. apply H. now apply elem_of_cons; right.
Qed.

Lemma with_marker_settled (p : ptr) (o : Object.t) (coll : Collection.t)
    (lib : Library.t) (w : bpy) :
  NoDup (object_set w) ->
  find_object p (data_objects w) = Some o ->
  linked_instance o = Some (coll, lib) ->
  tagged o = o ->
  with_marker p coll lib w = w.
Proof.
  intros Hnd Hp Hl Ht. unfold with_marker.
  rewrite (update_object_id p _ o _ Hnd Hp); [now destruct w|].
  unfold tagged in Ht. now rewrite Hl in Ht.
Qed.

Lemma settled_after_pass (remove_missing : option exn) (w w' : bpy) :
  preprocess remove_missing w = (Ok tt, w') -> settled w'.
Proof.
  rewrite preprocess_unfold. intros Hrun p o' Hp'.
  pose proof (loop_shrinks _ _ _ _ Hrun) as (Hs & Hsub & _).
  destruct (Hs p o' Hp') as (o & Ho & _).
  assert (Hin : p ∈ object_set w) by (apply find_object_is_Some; eauto).
  split.
  - rewrite (loop_survivor _ _ p o o' _ _ Hrun Ho Hp'), decide_True by done.
    apply tagged_tagged.
  - intros coll lib m Hl Hm.
    exact (loop_visited _ _ _ _ Hrun p o' coll lib m Hin Hp' Hl (Hsub _ _ Hm)).
Qed.

Lemma settled_loop_ignored (l : list ptr) (w : bpy) :
  NoDup (object_set w) -> settled w ->
  exists w2, for_each l (loop_body None) w = (Ok tt, w2) /\
             data_objects w2 = data_objects w /\
             data_collections w2 = data_collections w.
Proof.
  revert w. induction l as [|q l IH]; intros w Hnd Hset; [now exists w|].
  assert (Hstep : exists w1, loop_body None q w = (Ok tt, w1) /\
                             data_objects w1 = data_objects w /\
                             data_collections w1 = data_collections w).
  { rewrite loop_body_unfold.
    destruct (find_object q (data_objects w)) as [o|] eqn:Hq; [|now exists w].
    rewrite visit_instances.
    destruct (linked_instance o) as [[coll lib]|] eqn:Hl; [|now exists w].
    destruct (Hset q o Hq) as [Ht Hgone].
    rewrite (with_marker_settled q o coll lib w) by done.
    apply remove_loop_missing_ignored; [done|].
    intros m Hm. exact (Hgone coll lib m Hl Hm). }
  destruct Hstep as (w1 & H1 & Eo & Ec).
  destruct (IH w1) as (w2 & H2 & Eo2 & Ec2).
  - unfold object_set. now rewrite Eo.
  - unfold settled, collection_objects. now rewrite Eo, Ec.
  - exists w2. cbn [for_each]. unfold bind. rewrite H1.
    split; [done|]. split; congruence.
Qed.

(** X9: on a host that ignores stale removals, the pass can be run again
    on the file it has processed: the second run completes and leaves the
    object list, custom properties included, as the first run left it. *)
Theorem second_pass_changes_nothing (remove_missing : option exn) (w w1 : bpy) :
  NoDup (object_set w) ->
  preprocess remove_missing w = (Ok tt, w1) ->
  exists w2, preprocess None w1 = (Ok tt, w2) /\
             data_objects w2 = data_objects w1.
Proof.
  intros Hnd Hrun. rewrite preprocess_unfold.
  destruct (settled_loop_ignored (object_set w1) w1) as (w2 & H2 & Eo & _).
  - rewrite preprocess_unfold in Hrun. exact (loop_NoDup _ _ _ _ Hrun Hnd).
  - exact (settled_after_pass _ _ _ Hrun).
  - eauto.
Qed.

Lemma second_pass_changes_nothing_witness :
  NoDup (object_set nested_scene) /\
  preprocess (Some ReferenceError) nested_scene = (Ok tt, nested_scene_after) /\
  exists w2, preprocess None nested_scene_after = (Ok tt, w2) /\
             data_objects w2 = data_objects nested_scene_after.
Proof.
  assert (H1 : NoDup (object_set nested_scene)) by decide_closed.
  assert (H2 : preprocess (Some ReferenceError) nested_scene
               = (Ok tt, nested_scene_after)) by (vm_compute; reflexivity).
  split; [exact H1|]. split; [exact H2|].
  exact (second_pass_changes_nothing _ _ _ H1 H2).
Defined.

Lemma for_each_Ok_invariant {S X} (I : S -> Prop) (body : X -> M S unit) :
  (forall x s s', body x s = (Ok tt, s') -> I s -> I s') ->
  forall l s s', for_each l body s = (Ok tt, s') -> I s -> I s'.
Proof.
  intros Hbody l. induction l as [|x l IH]; intros s s'.
  - now intros [= <-].
  - intros (s1 & H1 & H2)%for_each_cons_Ok Hs. eauto.
Qed.

Lemma objects_remove_members_in_file (remove_missing : option exn) (p : ptr)
    (w w' : bpy) :
  objects_remove remove_missing p w = (Ok tt, w') ->
  members_in_file w -> members_in_file w'.
Proof.
  unfold objects_remove.
  destruct (find_object p (data_objects w)) as [o|] eqn:E.
  - intros [= <-] Hin coll m. unfold collection_objects, object_set. cbn.
    rewrite find_members_unlink, elem_of_filter_ne, object_set_delete.
    intros [Hm Hne]. split; [exact (Hin coll m Hm)|done].
  - destruct remove_missing; [done|]. now intros [= <-].
Qed.

Lemma loop_members_in_file (remove_missing : option exn) (l : list ptr)
    (w w' : bpy) :
  for_each l (loop_body remove_missing) w = (Ok tt, w') ->
  members_in_file w -> members_in_file w'.
Proof.
  apply (for_each_Ok_invariant members_in_file). clear. intros p w w' Hrun Hin.
  apply loop_body_Ok in Hrun
    as [[_ ->]|[(obj & _ & _ & ->)|(obj & coll & lib & _ & _ & Hrun)]]; [done..|].
  refine (for_each_Ok_invariant members_in_file _ _ _ _ _ Hrun _).
  - apply objects_remove_members_in_file.
  - intros c m Hm. unfold object_set. cbn. rewrite map_fst_update_object.
    exact (Hin c m Hm).
Qed.

(** A settled file whose members are all in the file has no member left in
    the linked collections its objects instance: a further pass is the
    identity. *)
Lemma settled_loop_identity (remove_missing : option exn) (l : list ptr) (w : bpy) :
  NoDup (object_set w) -> settled w -> members_in_file w ->
  for_each l (loop_body remove_missing) w = (Ok tt, w).
Proof.
  intros Hnd Hset Hin. induction l as [|q l IH]; [done|].
  cbn [for_each]. unfold bind. rewrite loop_body_unfold.
  destruct (find_object q (data_objects w)) as [o|] eqn:Hq; [|exact IH].
  rewrite visit_instances.
  destruct (linked_instance o) as [[coll lib]|] eqn:Hl; [|exact IH].
  destruct (Hset q o Hq) as [Ht Hgone].
  rewrite (with_marker_settled q o coll lib w) by done.
  destruct (collection_objects coll w) as [|m ms] eqn:Hms; [exact IH|].
  assert (Hm : m ∈ collection_objects coll w) by (rewrite Hms; apply list_elem_of_here).
  pose proof (Hgone coll lib m Hl Hm) as Hnone.
  apply find_object_None in Hnone. destruct (Hnone (Hin coll m Hm)).
Qed.

(** X10: the handler can be run again on the file it has processed, on
    either host: the collections it emptied stay empty, so the second run
    requests no removal and changes nothing in the file, and goes on to
    request the export again.  The members of the collections are objects
    of the file, as the host keeps them. *)
Theorem second_run_requests_no_removal (basename : string -> string)
    (remove_missing remove_missing' : option exn)
    (exporter : gltf_kwargs -> bpy -> outcome unit) (argv : list string)
    (w w1 : bpy) :
  NoDup (object_set w) ->
  (forall coll m, m ∈ collection_objects coll w -> m ∈ object_set w) ->
  preprocess remove_missing w = (Ok tt, w1) ->
  preprocess remove_missing' w1 = (Ok tt, w1) /\
  let kw := gltf_call (target_dir (parse_args argv))
              (removesuffix (basename (data_filepath w1)) ".blend")
              (is_debug_mode (parse_args argv)) in
  export basename remove_missing' exporter argv w1 =
    (exporter kw w1, log_request (ExportSceneGltf kw) w1).
Proof.
  intros Hnd Hin Hrun.
  assert (H : preprocess remove_missing' w1 = (Ok tt, w1)).
  { rewrite preprocess_unfold. apply settled_loop_identity.
    - rewrite preprocess_unfold in Hrun. exact (loop_NoDup _ _ _ _ Hrun Hnd).
    - exact (settled_after_pass _ _ _ Hrun).
    - rewrite preprocess_unfold in Hrun. exact (loop_members_in_file _ _ _ _ Hrun Hin). }
  split; [exact H|]. cbv zeta. now rewrite export_unfold, H.
Qed.

Lemma second_run_requests_no_removal_witness :
  NoDup (object_set flat_scene) /\
  (forall coll m, m ∈ collection_objects coll flat_scene -> m ∈ object_set flat_scene) /\
  preprocess None flat_scene = (Ok tt, flat_scene_after) /\
  preprocess (Some ReferenceError) flat_scene_after = (Ok tt, flat_scene_after) /\
  export posix_basename (Some ReferenceError) exporter_returns
    ["blender"; "--"; "out"] flat_scene_after =
    (Ok tt, log_request (ExportSceneGltf (gltf_call "out" "level" false))
              flat_scene_after).
Proof.
  assert (H1 : NoDup (object_set flat_scene)) by decide_closed.
  assert (H2 : forall coll m, m ∈ collection_objects coll flat_scene ->
                              m ∈ object_set flat_scene).
  { intros coll m. unfold collection_objects. cbn.
    destruct (Collection.eqb tree coll); [|destruct (Collection.eqb rocks coll)];
      intros Hm; [| |now apply elem_of_nil in Hm];
      split_elem_of Hm; subst m; decide_closed. }
  assert (H3 : preprocess None flat_scene = (Ok tt, flat_scene_after))
    by (vm_compute; reflexivity).
  split; [exact H1|]. split; [exact H2|]. split; [exact H3|].
  exact (second_run_requests_no_removal posix_basename None (Some ReferenceError)
           exporter_returns ["blender"; "--"; "out"] _ _ H1 H2 H3).
Defined.

(** ** Files without linked instances *)

Lemma find_object_Some_elem_of (p : ptr) (o : Object.t)
    (objs : list (ptr * Object.t)) :
  find_object p objs = Some o -> (p, o) ∈ objs.
Proof.
  induction objs as [|[r o'] objs IH]; cbn; [done|].
  destruct (Nat.eqb_spec r p) as [->|_].
  - intros [= ->]. apply list_elem_of_here.
  - intros H. apply list_elem_of_further, IH, H.
Qed.

(** X11: a file in which no object instances a library-backed collection
    goes through the handler untouched, on either host: no removal is
    requested, no property is set, and the one request is the export. *)
Theorem file_without_linked_instances_is_exported_as_is
    (basename : string -> string) (remove_missing : option exn)
    (exporter : gltf_kwargs -> bpy -> outcome unit)
    (argv : list string) (w : bpy) :
  (forall q o coll, (q, o) ∈ data_objects w ->
     Object.instance_collection o = Some coll -> Collection.library coll = None) ->
  preprocess remove_missing w = (Ok tt, w) /\
  let kw := gltf_call (target_dir (parse_args argv))
              (removesuffix (basename (data_filepath w)) ".blend")
              (is_debug_mode (parse_args argv)) in
  export basename remove_missing exporter argv w =
    (exporter kw w, log_request (ExportSceneGltf kw) w).
Proof.
  intros Hplain.
  assert (H : preprocess remove_missing w = (Ok tt, w)).
  { rewrite preprocess_unfold. apply loop_noop. intros q o _ Hq.
    apply linked_instance_None.
    destruct (Object.instance_collection o) as [coll|] eqn:Hic; [right|now left].
    exists coll. split; [done|].
    exact (Hplain q o coll (find_object_Some_elem_of _ _ _ Hq) Hic). }
  split; [exact H|]. now apply export_unfold_Ok.
Qed.

Lemma file_without_linked_instances_is_exported_as_is_witness :
  (forall q o coll, (q, o) ∈ [(5, plain "rock"); (6, instance "rocks.000" rocks)] ->
     Object.instance_collection o = Some coll -> Collection.library coll = None) /\
  preprocess (Some ReferenceError)
    (Bpy "rocks.blend" [(5, plain "rock"); (6, instance "rocks.000" rocks)]
       [(rocks, [5])] []) =
  (Ok tt, Bpy "rocks.blend" [(5, plain "rock"); (6, instance "rocks.000" rocks)]
            [(rocks, [5])] []).
Proof.
  assert (H : forall q o coll,
             (q, o) ∈ [(5, plain "rock"); (6, instance "rocks.000" rocks)] ->
             Object.instance_collection o = Some coll ->
             Collection.library coll = None).
  { intros q o coll Hin Hic.
    split_elem_of Hin; injection Hin as -> ->; cbn in Hic; try discriminate.
    now injection Hic as <-. }
  split; [exact H|].
  exact (proj1 (file_without_linked_instances_is_exported_as_is posix_basename
                  (Some ReferenceError) exporter_returns []
                  (Bpy "rocks.blend" [(5, plain "rock"); (6, instance "rocks.000" rocks)]
                     [(rocks, [5])] [])
                  H)).
Defined.
